(** * oduortoni/websocket: the connection lifecycle of package [ws]

    A shallow embedding of the Go package [ws] (identity.go,
    session_validator.go, envelope.go, the [Client] constructor and the
    [WebsocketHandler] with its read loop [HandleClient]) together with
    the properties of its lifecycle.

    Conventions.
    - A Go [error] is [option string]: [None] is [nil].
    - A Go interface is the record of its methods; every method is a
      state transformer over the application heap [App], the objects
      the caller of the package owns (validator, handler, persister),
      which may alias each other.
    - A [*websocket.Conn] is an address into the store of transports of
      the [World]; two copies of the pointer name the same transport.
    - Every call the package makes on a collaborator or on a transport
      is recorded in the [trace] of the [World], oldest first.
    - [go f(...)] adds a goroutine to the system; the scheduler, a list
      of thread identifiers, decides who moves next. *)

From Stdlib Require Import ZArith NArith Lia List String Ascii.
From Stdlib.Strings Require Import Byte.
From stdpp Require Import base list vector gmap strings.
Import ListNotations.

Local Open Scope nat_scope.

(* ================================================================== *)
(** * Part I. The program *)
(* ================================================================== *)

(** ** Errors and frames *)

Definition error : Type := option string.

Definition errors_New (msg : string) : error := Some msg.

Definition is_nil (e : error) : bool :=
  match e with None => true | Some _ => false end.

(** A frame is Go's [[]byte]. *)
Definition Frame : Type := list byte.

(** [time.Time], as a count of ticks. *)
Definition Time : Type := Z.

(** ** identity.go *)

(** [uuid.UUID] is [[16]byte]. *)
Definition UUID : Type := vec byte 16.

(** [type Identity uuid.UUID]: a defined type over the same 16 bytes;
    the conversions [Identity(u)] and [uuid.UUID(i)] keep the bytes. *)
Record Identity : Type := MkIdentity { Identity_UUID : UUID }.

(** The zero value of [Identity], as in [ws.SessionInfo{}]. *)
Definition Identity_zero : Identity := MkIdentity (Vector.const x00 16).

(** [s[lo:hi]] on a slice. *)
Definition slice {A : Type} (s : list A) (lo hi : nat) : list A :=
  take (hi - lo) (drop lo s).

Definition hextable : list ascii := list_ascii_of_string "0123456789abcdef".

Definition hexchar (k : N) : ascii := nth (N.to_nat k) hextable "0"%char.

(** [hex.Encode]: two characters per byte, high nibble first. *)
Definition hex_Encode (src : list byte) : list ascii :=
  flat_map
    (fun v => [hexchar (N.shiftr (Byte.to_N v) 4);
               hexchar (N.land (Byte.to_N v) 15)])
    src.

Definition dash : ascii := "-"%char.

(** Modelled from the spec: [uuid.UUID.String] of the package
    github.com/google/uuid is not among the sources; the spec fixes its
    result as the canonical form, 36 characters, hyphenated, lowercase.
    The layout is the 8-4-4-4-12 grouping of the sixteen bytes in
    hexadecimal. *)
Definition uuid_String (uuid : UUID) : string :=
  let u := vec_to_list uuid in
  string_of_list_ascii
    (hex_Encode (slice u 0 4) ++ [dash] ++
     hex_Encode (slice u 4 6) ++ [dash] ++
     hex_Encode (slice u 6 8) ++ [dash] ++
     hex_Encode (slice u 8 10) ++ [dash] ++
     hex_Encode (slice u 10 16)).

(** [func (i Identity) String() string]. *)
Definition Identity_String (i : Identity) : string :=
  uuid_String (Identity_UUID i).









(** Character classes of the canonical form. *)
Definition is_upper (c : ascii) : bool :=
  (65 <=? nat_of_ascii c) && (nat_of_ascii c <=? 90).

Definition is_lower_hex (c : ascii) : bool :=
  ((48 <=? nat_of_ascii c) && (nat_of_ascii c <=? 57))
  || ((97 <=? nat_of_ascii c) && (nat_of_ascii c <=? 102)).

Definition is_hyphen_pos (k : nat) : bool :=
  (k =? 8) || (k =? 13) || (k =? 18) || (k =? 23).

(** What position [k] of a canonical text must hold. *)
Definition canonical_at (k : nat) (c : ascii) : bool :=
  if is_hyphen_pos k then Ascii.eqb c dash else is_lower_hex c.

Fixpoint canonical_from (k : nat) (s : list ascii) : bool :=
  match s with
  | [] => true
  | c :: s' => canonical_at k c && canonical_from (S k) s'
  end.

Definition canonical (s : string) : bool :=
  (String.length s =? 36) && canonical_from 0 (list_ascii_of_string s).

(** ** session_validator.go *)

Record SessionInfo : Type := MkSessionInfo {
  ClientID : Identity;
  Metadata : gmap string string
}.

(** The zero value [ws.SessionInfo{}]: zero identity, nil map. *)
Definition SessionInfo_zero : SessionInfo := MkSessionInfo Identity_zero ∅.

(** ** envelope.go *)

(** The values an [interface{}] of a payload holds once decoded. *)
Inductive GoValue : Type :=
| VNil
| VBool (b : bool)
| VNumber (z : Z)
| VString (s : string).

Record Envelope : Type := MkEnvelope {
  Envelope_ID : Identity;
  Envelope_ClientID : Identity;
  Envelope_Type : string;
  Payload : gmap string GoValue;
  Timestamp : Time;
  Delivered : option Time   (* *time.Time, nil until confirmed *)
}.

(** ** Buffered channels, as [make(chan []byte, n)] gives them *)

Record Chan : Type := MkChan {
  chan_buf : list Frame;   (* oldest first *)
  chan_cap : nat
}.

Definition make_chan (n : nat) : Chan := MkChan [] n.

Definition chan_len (ch : Chan) : nat := length (chan_buf ch).

(** How an attempt to enqueue ends: the value went in, the attempt was
    given up because the buffer is full, or the sender is parked until
    some receiver makes room. *)
Inductive SendOutcome : Type := Sent | Full | Blocked.

(** The send statement [ch <- v]. *)
Definition chan_send (v : Frame) (ch : Chan) : Chan * SendOutcome :=
  if chan_len ch <? chan_cap ch
  then (MkChan (chan_buf ch ++ [v]) (chan_cap ch), Sent)
  else (ch, Blocked).

(** [select { case ch <- v: ... default: ... }]. *)
Definition chan_try_send (v : Frame) (ch : Chan) : Chan * SendOutcome :=
  if chan_len ch <? chan_cap ch
  then (MkChan (chan_buf ch ++ [v]) (chan_cap ch), Sent)
  else (ch, Full).

(** The receive [<-ch] of a consumer, when a value is waiting. *)
Definition chan_recv (ch : Chan) : Chan * option Frame :=
  match chan_buf ch with
  | [] => (ch, None)
  | v :: rest => (MkChan rest (chan_cap ch), Some v)
  end.

Inductive ChanOp : Type :=
| OpSend (v : Frame)
| OpTrySend (v : Frame)
| OpRecv.

Definition chan_apply (op : ChanOp) (ch : Chan) : Chan :=
  match op with
  | OpSend v => fst (chan_send v ch)
  | OpTrySend v => fst (chan_try_send v ch)
  | OpRecv => fst (chan_recv ch)
  end.

Definition chan_run (ops : list ChanOp) (ch : Chan) : Chan :=
  fold_left (fun c op => chan_apply op c) ops ch.

(** ** The [Client] and its constructor *)

(** A [*websocket.Conn]. *)
Definition ConnRef : Type := nat.

Record Client : Type := MkClient {
  ID : Identity;
  Conn : ConnRef;
  Send : Chan;
  Connected : Time
}.

(** [NewClient]; [now] is what [time.Now()] returns. *)
Definition NewClient (id : Identity) (conn : ConnRef) (now : Time) : Client :=
  {| ID := MkIdentity (Identity_UUID id);
     Conn := conn;
     Send := make_chan 256;
     Connected := now |}.

(** ** Transports *)

(** One end of an upgraded connection: the frames the peer has sent or
    goes on to send before the stream breaks, and whether this end was
    closed. *)
Record WsConn : Type := MkWsConn {
  pending : list Frame;
  closed : bool
}.

(** ** What the package does to the outside, call by call *)

Inductive Event : Type :=
| EvValidate (session : SessionInfo) (err : error)
| EvHttpError (msg : string) (code : nat)
| EvUpgrade (conn : option ConnRef)
| EvNewClient (c : Client)
| EvGo (c : Client)
| EvReadMessage (conn : ConnRef) (message : option Frame)
| EvHandle (c : Client) (message : Frame) (err : error)
| EvClose (conn : ConnRef).

Definition http_StatusUnauthorized : nat := 401.
Definition http_StatusInternalServerError : nat := 500.

Section Core.

Context {Request App : Type}.

(** ** The collaborators: one record of methods per interface *)

Record SessionValidator : Type := MkSessionValidator {
  Validate : Request -> App -> App * (SessionInfo * error)
}.

(** The interface [MessageHandler] as the README declares it and the
    test doubles implement it. *)
Record MessageHandler : Type := MkMessageHandler {
  Handle : Client -> Frame -> App -> App * error
}.

Record EnvelopePersister : Type := MkEnvelopePersister {
  SaveEnvelope : Envelope -> App -> App * error;
  ConfirmDelivery : Identity -> Identity -> App -> App * error
}.

Record WebsocketHandler : Type := MkWebsocketHandler {
  WH_SessionValidator : SessionValidator;
  WH_MessageHandler : MessageHandler;
  WH_EnvelopePersister : EnvelopePersister
}.

Definition NewWebSocketHandler (validator : SessionValidator)
    (messeger : MessageHandler) (persister : EnvelopePersister)
  : WebsocketHandler :=
  {| WH_SessionValidator := validator;
     WH_MessageHandler := messeger;
     WH_EnvelopePersister := persister |}.

(** ** The world *)

Record World : Type := MkWorld {
  conns : gmap ConnRef WsConn;   (* the transports, by address *)
  nextConn : ConnRef;            (* the next address to hand out *)
  clock : Time;                  (* what time.Now() returns *)
  app : App;                     (* the caller's objects *)
  trace : list Event             (* oldest first *)
}.

Definition emit (e : Event) (w : World) : World :=
  {| conns := conns w; nextConn := nextConn w; clock := clock w;
     app := app w; trace := trace w ++ [e] |}.

Definition set_app (a : App) (w : World) : World :=
  {| conns := conns w; nextConn := nextConn w; clock := clock w;
     app := a; trace := trace w |}.

Definition set_conn (conn : ConnRef) (c : WsConn) (w : World) : World :=
  {| conns := <[conn := c]> (conns w); nextConn := nextConn w;
     clock := clock w; app := app w; trace := trace w |}.

Definition alloc (c : WsConn) (w : World) : ConnRef * World :=
  (nextConn w,
   {| conns := <[nextConn w := c]> (conns w); nextConn := S (nextConn w);
      clock := clock w; app := app w; trace := trace w |}).

(** [http.Error(w, msg, code)]. *)
Definition http_Error (msg : string) (code : nat) (w : World) : World :=
  emit (EvHttpError msg code) w.

(** ** The transport's two methods the package calls *)

(** [conn.ReadMessage()]: the next frame of the peer, or an error once
    this end is closed or the stream is broken. *)
Definition Conn_ReadMessage (conn : ConnRef) (w : World)
  : World * (Frame * error) :=
  match conns w !! conn with
  | Some c =>
      if closed c
      then (emit (EvReadMessage conn None) w,
            ([], errors_New "use of closed network connection"))
      else match pending c with
           | [] => (emit (EvReadMessage conn None) w,
                    ([], errors_New "unexpected EOF"))
           | message :: rest =>
               (emit (EvReadMessage conn (Some message))
                  (set_conn conn (MkWsConn rest false) w),
                (message, None))
           end
  | None => (emit (EvReadMessage conn None) w,
             ([], errors_New "invalid connection"))
  end.

(** [conn.Close()]; the package drops the error it returns. *)
Definition Conn_Close (conn : ConnRef) (w : World) : World :=
  emit (EvClose conn)
    match conns w !! conn with
    | Some c => set_conn conn (MkWsConn (pending c) true) w
    | None => w
    end.

(** The frames [ReadMessage] can still return on [conn]. *)
Definition readable (conn : ConnRef) (w : World) : list Frame :=
  match conns w !! conn with
  | Some c => if closed c then [] else pending c
  | None => []
  end.

(** [upgrader.Upgrade(w, r, nil)] of github.com/gorilla/websocket: the
    handshake on the request. [None] is a failed handshake, [Some c] the
    transport the library hands over. *)
Variable Upgrade : Request -> option WsConn.

(** ** [HandleClient]: the read loop *)

(** The whole loop, on its own thread with nobody else touching the
    world. [fuel] bounds the number of iterations. *)
Fixpoint HandleClient (fuel : nat) (client : Client)
    (messager : MessageHandler) (persister : EnvelopePersister)
    (w : World) : option World :=
  match fuel with
  | O => None
  | S fuel' =>
      let '(w1, (message, err)) := Conn_ReadMessage (Conn client) w in
      match err with
      | Some _ => Some (Conn_Close (Conn client) w1)        (* break *)
      | None =>
          let '(a, err) := Handle messager client message (app w1) in
          let w2 := emit (EvHandle client message err) (set_app a w1) in
          match err with
          | Some _ => HandleClient fuel' client messager persister w2
                                                            (* continue *)
          | None => HandleClient fuel' client messager persister w2
          end
      end
  end.

(** The same loop one call at a time, for the scheduler. *)
Inductive LoopPC : Type :=
| AtRead                      (* about to call ReadMessage *)
| AtHandle (message : Frame)  (* about to call Handle *)
| AtClose                     (* left the loop, about to call Close *)
| Finished.

Record Goroutine : Type := MkGoroutine {
  g_client : Client;
  g_messager : MessageHandler;
  g_persister : EnvelopePersister;
  g_pc : LoopPC
}.

Definition at_pc (g : Goroutine) (pc : LoopPC) : Goroutine :=
  {| g_client := g_client g; g_messager := g_messager g;
     g_persister := g_persister g; g_pc := pc |}.

Definition loop_step (g : Goroutine) (w : World) : World * Goroutine :=
  match g_pc g with
  | AtRead =>
      let '(w1, (message, err)) := Conn_ReadMessage (Conn (g_client g)) w in
      match err with
      | Some _ => (w1, at_pc g AtClose)
      | None => (w1, at_pc g (AtHandle message))
      end
  | AtHandle message =>
      let '(a, err) := Handle (g_messager g) (g_client g) message (app w) in
      let w2 := emit (EvHandle (g_client g) message err) (set_app a w) in
      match err with
      | Some _ => (w2, at_pc g AtRead)
      | None => (w2, at_pc g AtRead)
      end
  | AtClose => (Conn_Close (Conn (g_client g)) w, at_pc g Finished)
  | Finished => (w, g)
  end.

(** ** [ServeHTTP] *)

(** One request being served: the world, the deferred calls of the
    [ServeHTTP] frame that has not returned yet (receiver already
    evaluated), and the goroutine it started. *)
Record Sys : Type := MkSys {
  world : World;
  deferred : list ConnRef;
  loop : option Goroutine
}.

(** [ServeHTTP] up to its [go] statement or its early [return]. The
    upgrader it builds has read and write buffers of 1024 bytes, which
    do not enter what follows. *)
Definition ServeHTTP (h : WebsocketHandler) (r : Request) (w : World) : Sys :=
  let '(a, (session, err)) := Validate (WH_SessionValidator h) r (app w) in
  let w1 := emit (EvValidate session err) (set_app a w) in
  match err with
  | Some _ =>
      {| world := http_Error "Unauthorized" http_StatusUnauthorized w1;
         deferred := []; loop := None |}
  | None =>
      match Upgrade r with
      | None =>
          {| world := http_Error "WebSocket upgrade failed"
                        http_StatusInternalServerError
                        (emit (EvUpgrade None) w1);
             deferred := []; loop := None |}
      | Some c =>
          let '(conn, w2) := alloc c w1 in
          let w3 := emit (EvUpgrade (Some conn)) w2 in
          let client := NewClient (ClientID session) conn (clock w3) in
          let w4 := emit (EvNewClient client) w3 in
          (* defer client.Conn.Close() *)
          (* go HandleClient(client, h.MessageHandler, h.EnvelopePersister) *)
          {| world := emit (EvGo client) w4;
             deferred := [Conn client];
             loop := Some (MkGoroutine client (WH_MessageHandler h)
                             (WH_EnvelopePersister h) AtRead) |}
      end
  end.

(** ** The scheduler *)

Inductive Tid : Type :=
| TServe   (* the thread in ServeHTTP: returns, running a deferred call *)
| TLoop.   (* the goroutine in HandleClient: its next call *)

Definition step (t : Tid) (s : Sys) : Sys :=
  match t with
  | TServe =>
      match deferred s with
      | [] => s
      | conn :: rest =>
          {| world := Conn_Close conn (world s); deferred := rest;
             loop := loop s |}
      end
  | TLoop =>
      match loop s with
      | None => s
      | Some g =>
          let '(w', g') := loop_step g (world s) in
          {| world := w'; deferred := deferred s; loop := Some g' |}
      end
  end.

Definition run (sched : list Tid) (s : Sys) : Sys :=
  fold_left (fun s t => step t s) sched s.

(** Nothing is left to do: [ServeHTTP] has returned and the goroutine,
    if one was started, has left [HandleClient]. *)
Definition finished (s : Sys) : bool :=
  match deferred s, loop s with
  | [], None => true
  | [], Some g => match g_pc g with Finished => true | _ => false end
  | _ :: _, _ => false
  end.

(** The frame the loop has read and not handed to the handler yet. *)
Definition inflight (s : Sys) : list Frame :=
  match loop s with
  | Some g => match g_pc g with AtHandle m => [m] | _ => [] end
  | None => []
  end.

(** The calls of [Close] on [conn] that are still to come: one per
    deferred call, one for a loop that has not closed yet. *)
Fixpoint deferred_closes (conn : ConnRef) (ds : list ConnRef) : nat :=
  match ds with
  | [] => 0
  | c :: ds' => (if Nat.eqb c conn then 1 else 0) + deferred_closes conn ds'
  end.

Definition owed (conn : ConnRef) (s : Sys) : nat :=
  deferred_closes conn (deferred s)
  + match loop s with
    | Some g =>
        if Nat.eqb (Conn (g_client g)) conn
        then match g_pc g with Finished => 0 | _ => 1 end
        else 0
    | None => 0
    end.

(** The handle whose read loop is running. *)
Definition live_client (s : Sys) : option Client :=
  match loop s with
  | Some g => match g_pc g with Finished => None | _ => Some (g_client g) end
  | None => None
  end.

(** A server taking requests one after the other; each [ServeHTTP]
    returns before the next request is taken, and no goroutine has been
    scheduled yet. The result lists the handles whose read loops have
    been started, oldest first. *)
Fixpoint accept (h : WebsocketHandler) (rs : list Request) (w : World)
  : World * list Client :=
  match rs with
  | [] => (w, [])
  | r :: rs' =>
      let s := run [TServe] (ServeHTTP h r w) in
      let '(w', cs) := accept h rs' (world s) in
      (w', match live_client s with Some c => c :: cs | None => cs end)
  end.

(** The sessions the validator returns for the requests that end up
    with a handle, in order. *)
Fixpoint accepted_sessions (h : WebsocketHandler) (rs : list Request)
    (a : App) : list SessionInfo :=
  match rs with
  | [] => []
  | r :: rs' =>
      let '(a', (session, err)) := Validate (WH_SessionValidator h) r a in
      match err, Upgrade r with
      | None, Some _ => session :: accepted_sessions h rs' a'
      | _, _ => accepted_sessions h rs' a'
      end
  end.

End Core.

Arguments SessionValidator : clear implicits.
Arguments MessageHandler : clear implicits.
Arguments EnvelopePersister : clear implicits.
Arguments WebsocketHandler : clear implicits.
Arguments World : clear implicits.
Arguments Goroutine : clear implicits.
Arguments Sys : clear implicits.

(** ** Reading a trace *)

(** How often [Close] was called on [conn]. *)
Fixpoint closes (conn : ConnRef) (tr : list Event) : nat :=
  match tr with
  | [] => 0
  | EvClose c :: tr' => (if Nat.eqb c conn then 1 else 0) + closes conn tr'
  | _ :: tr' => closes conn tr'
  end.

(** The frames [ReadMessage] returned, in order. *)
Fixpoint frames_read (tr : list Event) : list Frame :=
  match tr with
  | [] => []
  | EvReadMessage _ (Some m) :: tr' => m :: frames_read tr'
  | _ :: tr' => frames_read tr'
  end.

(** The failed reads. *)
Fixpoint read_errors (tr : list Event) : nat :=
  match tr with
  | [] => 0
  | EvReadMessage _ None :: tr' => S (read_errors tr')
  | _ :: tr' => read_errors tr'
  end.

(** The frames [Handle] was given, in order. *)
Fixpoint frames_handled (tr : list Event) : list Frame :=
  match tr with
  | [] => []
  | EvHandle _ m _ :: tr' => m :: frames_handled tr'
  | _ :: tr' => frames_handled tr'
  end.

(** The handles [NewClient] built, in order. *)
Fixpoint clients_built (tr : list Event) : list Client :=
  match tr with
  | [] => []
  | EvNewClient c :: tr' => c :: clients_built tr'
  | _ :: tr' => clients_built tr'
  end.

(** The handles a read loop was started for. *)
Fixpoint loops_started (tr : list Event) : list Client :=
  match tr with
  | [] => []
  | EvGo c :: tr' => c :: loops_started tr'
  | _ :: tr' => loops_started tr'
  end.

(** The handshakes attempted. *)
Fixpoint upgrades (tr : list Event) : nat :=
  match tr with
  | [] => 0
  | EvUpgrade _ :: tr' => S (upgrades tr')
  | _ :: tr' => upgrades tr'
  end.

(** The status codes answered. *)
Fixpoint statuses (tr : list Event) : list nat :=
  match tr with
  | [] => []
  | EvHttpError _ code :: tr' => code :: statuses tr'
  | _ :: tr' => statuses tr'
  end.

(** The events of the read loop: what a scheduled step can add. *)
Definition loop_event (e : Event) : bool :=
  match e with
  | EvReadMessage _ _ | EvHandle _ _ _ | EvClose _ => true
  | _ => false
  end.

(** What the loop of [HandleClient] must leave in the trace when it
    reads [fs] and then fails to read: each frame read and then
    handled, the failed read, the close. [errs] gives the error of each
    [Handle] call. *)
Fixpoint loop_trace (client : Client) (fs : list (Frame * error))
  : list Event :=
  match fs with
  | [] => [EvReadMessage (Conn client) None; EvClose (Conn client)]
  | (m, err) :: fs' =>
      EvReadMessage (Conn client) (Some m) :: EvHandle client m err
      :: loop_trace client fs'
  end.

(** The handler on its own: what [Handle] returns frame after frame,
    and the application heap it leaves. *)
Fixpoint handle_all {App : Type} (messager : MessageHandler App)
    (client : Client) (fs : list Frame) (a : App)
  : App * list (Frame * error) :=
  match fs with
  | [] => (a, [])
  | m :: fs' =>
      let '(a1, err) := Handle messager client m a in
      let '(a2, rest) := handle_all messager client fs' a1 in
      (a2, (m, err) :: rest)
  end.

(** ** The test doubles of the package's tests *)

Record mockSessionValidator : Type := MkMockValidator {
  v_shouldFail : bool;
  v_session : SessionInfo
}.

Record mockMessageHandler : Type := MkMockHandler {
  m_shouldFail : bool;
  m_messages : list Frame
}.

Record mockEnvelopePersister : Type := MkMockPersister {
  p_shouldFail : bool;
  p_envelopes : list Envelope
}.

(** The three doubles a test allocates. *)
Record MockApp : Type := MkMockApp {
  mock_validator : mockSessionValidator;
  mock_handler : mockMessageHandler;
  mock_persister : mockEnvelopePersister
}.

Definition mock_Validate {Request : Type} (r : Request) (a : MockApp)
  : MockApp * (SessionInfo * error) :=
  if v_shouldFail (mock_validator a)
  then (a, (SessionInfo_zero, errors_New "unauthorized"))
  else (a, (v_session (mock_validator a), None)).

Definition mock_Handle (client : Client) (data : Frame) (a : MockApp)
  : MockApp * error :=
  if m_shouldFail (mock_handler a)
  then (a, errors_New "message handling failed")
  else (MkMockApp (mock_validator a)
          (MkMockHandler (m_shouldFail (mock_handler a))
             (m_messages (mock_handler a) ++ [data]))
          (mock_persister a),
        None).

Definition mock_SaveEnvelope (e : Envelope) (a : MockApp) : MockApp * error :=
  if p_shouldFail (mock_persister a)
  then (a, errors_New "save failed")
  else (MkMockApp (mock_validator a) (mock_handler a)
          (MkMockPersister (p_shouldFail (mock_persister a))
             (p_envelopes (mock_persister a) ++ [e])),
        None).

Definition mock_ConfirmDelivery (envelopeID clientID : Identity) (a : MockApp)
  : MockApp * error :=
  if p_shouldFail (mock_persister a)
  then (a, errors_New "confirm delivery failed")
  else (a, None).

Definition mockValidator {Request : Type} : SessionValidator Request MockApp :=
  MkSessionValidator mock_Validate.

Definition mockHandler : MessageHandler MockApp :=
  MkMessageHandler mock_Handle.

Definition mockPersister : EnvelopePersister MockApp :=
  MkEnvelopePersister mock_SaveEnvelope mock_ConfirmDelivery.

Definition mock_handler_of {Request : Type} : WebsocketHandler Request MockApp :=
  NewWebSocketHandler mockValidator mockHandler mockPersister.

(** ** The collaborators of the demo program *)

Definition demo_Validate {Request : Type} (r : Request) (a : unit)
  : unit * (SessionInfo * error) :=
  (a, (SessionInfo_zero, None)).

Definition demo_Handle (client : Client) (data : Frame) (a : unit)
  : unit * error := (a, None).

Definition demo_SaveEnvelope (e : Envelope) (a : unit) : unit * error :=
  (a, None).

Definition demo_ConfirmDelivery (envelopeID clientID : Identity) (a : unit)
  : unit * error := (a, None).

Definition demo_handler {Request : Type} : WebsocketHandler Request unit :=
  NewWebSocketHandler (MkSessionValidator demo_Validate)
    (MkMessageHandler demo_Handle)
    (MkEnvelopePersister demo_SaveEnvelope demo_ConfirmDelivery).

(** ** Concrete worlds for the examples *)

Definition empty_world {App : Type} (a : App) : World App :=
  {| conns := ∅; nextConn := 0; clock := 0%Z; app := a; trace := [] |}.

Definition mock_app (validator_fails handler_fails : bool) : MockApp :=
  MkMockApp (MkMockValidator validator_fails SessionInfo_zero)
    (MkMockHandler handler_fails [])
    (MkMockPersister false []).

(** The queue of a fresh handle after 256 successful sends. *)
Definition full_queue : Chan :=
  chan_run (repeat (OpTrySend []) 256) (Send (NewClient Identity_zero 0 0%Z)).

(** A request is, for the examples, the frames its peer will send if
    the handshake goes through; [None] makes the handshake fail. *)
Definition example_Upgrade (r : option (list Frame)) : option WsConn :=
  match r with
  | Some fs => Some (MkWsConn fs false)
  | None => None
  end.

(** Three one-byte frames, "a", "b" and "c". *)
Definition frame_a : Frame := [x61].
Definition frame_b : Frame := [x62].
Definition frame_c : Frame := [x63].

(** A handler like the double, which fails on the frame "b" only. *)
Definition picky_Handle (client : Client) (data : Frame) (a : MockApp)
  : MockApp * error :=
  match data with
  | [x62] => (a, errors_New "message handling failed")
  | _ => (MkMockApp (mock_validator a)
            (MkMockHandler (m_shouldFail (mock_handler a))
               (m_messages (mock_handler a) ++ [data]))
            (mock_persister a),
          None)
  end.

Definition pickyHandler : MessageHandler MockApp :=
  MkMessageHandler picky_Handle.

(** A persister that records every call as an envelope saved. *)
Definition loud_SaveEnvelope (e : Envelope) (a : MockApp) : MockApp * error :=
  (MkMockApp (mock_validator a) (mock_handler a)
     (MkMockPersister (p_shouldFail (mock_persister a))
        (p_envelopes (mock_persister a) ++ [e])),
   errors_New "save failed").

Definition loud_ConfirmDelivery (envelopeID clientID : Identity) (a : MockApp)
  : MockApp * error :=
  (MkMockApp (mock_validator a) (mock_handler a)
     (MkMockPersister (p_shouldFail (mock_persister a))
        (p_envelopes (mock_persister a)
         ++ [MkEnvelope envelopeID clientID "" ∅ 0%Z None])),
   errors_New "confirm delivery failed").

Definition loudPersister : EnvelopePersister MockApp :=
  MkEnvelopePersister loud_SaveEnvelope loud_ConfirmDelivery.

(** A world with one open transport, at address 0, whose peer sends
    [fs]; and a handle on it. *)
Definition one_conn_world (fs : list Frame) (a : MockApp) : World MockApp :=
  snd (alloc (MkWsConn fs false) (empty_world a)).

Definition example_client : Client := NewClient Identity_zero 0 0%Z.


(** ** Further readings of a run *)

(** The calls of the validator. *)
Fixpoint validations (tr : list Event) : nat :=
  match tr with
  | [] => 0
  | EvValidate _ _ :: tr' => S (validations tr')
  | _ :: tr' => validations tr'
  end.




(** The goroutine, if there is one, has nothing to read on its
    transport. *)
Definition starved {App : Type} (s : Sys App) : Prop :=
  match loop s with
  | Some g => readable (Conn (g_client g)) (world s) = []
  | None => True
  end.

(** The application heap that the [Handle] calls of a trace leave when
    replayed, in order, on the heap of [s]. *)
Definition heap_after {App : Type} (s : Sys App) (tr : list Event) : App :=
  match loop s with
  | Some g =>
      fst (handle_all (g_messager g) (g_client g) (frames_handled tr)
             (app (world s)))
  | None => app (world s)
  end.

(** The status codes a server answers to the requests it turns down,
    in order. *)
Fixpoint rejections {Request App : Type} (Upgrade : Request -> option WsConn)
    (h : WebsocketHandler Request App) (rs : list Request) (a : App)
  : list nat :=
  match rs with
  | [] => []
  | r :: rs' =>
      let '(a', (session, err)) := Validate (WH_SessionValidator h) r a in
      match err, Upgrade r with
      | Some _, _ => http_StatusUnauthorized :: rejections Upgrade h rs' a'
      | None, None =>
          http_StatusInternalServerError :: rejections Upgrade h rs' a'
      | None, Some _ => rejections Upgrade h rs' a'
      end
  end.


(** A call on a persister, and a sequence of such calls. *)
Inductive PersistCall : Type :=
| CallSave (e : Envelope)
| CallConfirm (envelopeID clientID : Identity).

Definition persist_call {App : Type} (p : EnvelopePersister App)
    (c : PersistCall) (a : App) : App * error :=
  match c with
  | CallSave e => SaveEnvelope p e a
  | CallConfirm envelopeID clientID => ConfirmDelivery p envelopeID clientID a
  end.

Fixpoint persist_all {App : Type} (p : EnvelopePersister App)
    (cs : list PersistCall) (a : App) : App * list error :=
  match cs with
  | [] => (a, [])
  | c :: cs' =>
      let '(a1, err) := persist_call p c a in
      let '(a2, errs) := persist_all p cs' a1 in
      (a2, err :: errs)
  end.

(** The envelopes a sequence of calls asks to save. *)
Fixpoint saved (cs : list PersistCall) : list Envelope :=
  match cs with
  | [] => []
  | CallSave e :: cs' => e :: saved cs'
  | CallConfirm _ _ :: cs' => saved cs'
  end.

(** A world with two open transports, at addresses 0 and 1. *)
Definition two_conn_world (fs0 fs1 : list Frame) (a : MockApp)
  : World MockApp :=
  snd (alloc (MkWsConn fs1 false) (one_conn_world fs0 a)).

(* ================================================================== *)
(** * Part II. Properties *)
(* ================================================================== *)

(** ** The textual form of an identity *)

Lemma hexchar_lower_hex (k : N) : is_lower_hex (hexchar k) = true.
Proof.
  unfold hexchar. generalize (N.to_nat k). intros n.
  do 16 (destruct n as [|n]; [reflexivity|]).
  destruct n; reflexivity.
Qed.

Lemma hexchar_not_upper (k : N) : is_upper (hexchar k) = false.
Proof.
  unfold hexchar. generalize (N.to_nat k). intros n.
  do 16 (destruct n as [|n]; [reflexivity|]).
  destruct n; reflexivity.
Qed.








Lemma length_string_of_list_ascii (l : list ascii) :
  String.length (string_of_list_ascii l) = length l.
Proof. induction l as [|c l IH]; simpl; [reflexivity | now rewrite IH]. Qed.

(** C9. For every identity, [String] returns the canonical text: 36
    characters, a hyphen at positions 8, 13, 18 and 23, a digit or a
    letter from a to f everywhere else, and no capital letter. *)
Theorem Identity_String_canonical (i : Identity) :
  String.length (Identity_String i) = 36
  /\ canonical (Identity_String i) = true
  /\ forallb (fun c => negb (is_upper c))
       (list_ascii_of_string (Identity_String i)) = true.
Proof.
  destruct i as [u]. inv_vec u. intros.
  unfold canonical, Identity_String, uuid_String. cbn [Identity_UUID].
  rewrite list_ascii_of_string_of_list_ascii, length_string_of_list_ascii.
  unfold hex_Encode, slice.
  cbn -[hexchar is_lower_hex is_upper].
  split; [reflexivity|]. split.
  - unfold canonical_at. cbn -[hexchar is_lower_hex is_upper].
    rewrite !hexchar_lower_hex. reflexivity.
  - rewrite !hexchar_not_upper. reflexivity.
Qed.




(** ** The outbound queue *)

Lemma chan_apply_cap (op : ChanOp) (ch : Chan) :
  chan_cap (chan_apply op ch) = chan_cap ch.
Proof.
  destruct op as [v|v|]; unfold chan_apply, chan_send, chan_try_send, chan_recv.
  - destruct (chan_len ch <? chan_cap ch); reflexivity.
  - destruct (chan_len ch <? chan_cap ch); reflexivity.
  - destruct (chan_buf ch); reflexivity.
Qed.

Lemma chan_apply_bounded (op : ChanOp) (ch : Chan) :
  chan_len ch <= chan_cap ch ->
  chan_len (chan_apply op ch) <= chan_cap (chan_apply op ch).
Proof.
  intros Hb. rewrite chan_apply_cap.
  destruct op as [v|v|]; unfold chan_apply, chan_send, chan_try_send, chan_recv.
  - destruct (Nat.ltb_spec (chan_len ch) (chan_cap ch)) as [Hlt|Hge];
      unfold chan_len in *; simpl; [rewrite length_app; simpl; lia | lia].
  - destruct (Nat.ltb_spec (chan_len ch) (chan_cap ch)) as [Hlt|Hge];
      unfold chan_len in *; simpl; [rewrite length_app; simpl; lia | lia].
  - unfold chan_len in *. destruct ch as [[|v rest] cap]; simpl in *; lia.
Qed.

Lemma chan_run_invariant (ops : list ChanOp) (ch : Chan) :
  chan_len ch <= chan_cap ch ->
  chan_cap (chan_run ops ch) = chan_cap ch
  /\ chan_len (chan_run ops ch) <= chan_cap ch.
Proof.
  revert ch. induction ops as [|op ops IH]; intros ch Hb; simpl.
  - split; [reflexivity | assumption].
  - destruct (IH (chan_apply op ch) (chan_apply_bounded op ch Hb)) as [Hc Hl].
    rewrite chan_apply_cap in Hc, Hl. split; assumption.
Qed.

(** C7, what the package guarantees: the queue [NewClient] makes has
    capacity 256 for good and never holds more than 256 messages,
    whatever is done to it; at capacity a non-blocking attempt
    ([select] with [default]) gives up at once with [Full] and leaves
    the queue as it was, while a plain send is parked. *)
Theorem Send_queue_bounded (id : Identity) (conn : ConnRef) (now : Time)
    (ops : list ChanOp) :
  let ch := chan_run ops (Send (NewClient id conn now)) in
  chan_cap ch = 256
  /\ chan_len ch <= 256
  /\ (forall v, chan_len ch = 256 ->
        chan_try_send v ch = (ch, Full) /\ chan_send v ch = (ch, Blocked)).
Proof.
  cbv zeta.
  destruct (chan_run_invariant ops (Send (NewClient id conn now))) as [Hc Hl];
    [simpl; unfold chan_len; simpl; lia|].
  change (chan_cap (Send (NewClient id conn now))) with 256 in Hc, Hl.
  split; [exact Hc|]. split; [exact Hl|].
  intros v Hfull. unfold chan_try_send, chan_send. rewrite Hc, Hfull.
  split; reflexivity.
Qed.

Lemma Send_queue_bounded_witness :
  chan_len full_queue = 256
  /\ chan_try_send [x68; x69] full_queue = (full_queue, Full).
Proof.
  split; [vm_compute; reflexivity|].
  apply (proj2 (proj2 (Send_queue_bounded Identity_zero 0 0%Z
                         (repeat (OpTrySend []) 256))) [x68; x69]).
  vm_compute; reflexivity.
Defined.

(** C7, against it: on the queue of a fresh handle filled to its
    256 messages, the send statement is an attempt to enqueue that does
    not end with [Full]: it is parked. *)
Lemma plain_send_on_full_queue_blocks :
  chan_len full_queue = chan_cap full_queue
  /\ snd (chan_send [x68; x69] full_queue) = Blocked
  /\ snd (chan_send [x68; x69] full_queue) <> Full.
Proof.
  split; [vm_compute; reflexivity|].
  split; [vm_compute; reflexivity|].
  vm_compute. discriminate.
Qed.

(** ** Traces *)

Lemma closes_app (conn : ConnRef) (t1 t2 : list Event) :
  closes conn (t1 ++ t2) = closes conn t1 + closes conn t2.
Proof.
  induction t1 as [|e t1 IH]; simpl; [reflexivity|].
  destruct e; simpl; rewrite ?IH; try reflexivity. lia.
Qed.

Lemma frames_read_app (t1 t2 : list Event) :
  frames_read (t1 ++ t2) = frames_read t1 ++ frames_read t2.
Proof.
  induction t1 as [|e t1 IH]; simpl; [reflexivity|].
  destruct e as [| | | | |c [m|]| |]; simpl; rewrite ?IH; reflexivity.
Qed.

Lemma frames_handled_app (t1 t2 : list Event) :
  frames_handled (t1 ++ t2) = frames_handled t1 ++ frames_handled t2.
Proof.
  induction t1 as [|e t1 IH]; simpl; [reflexivity|].
  destruct e; simpl; rewrite ?IH; reflexivity.
Qed.

Lemma clients_built_app (t1 t2 : list Event) :
  clients_built (t1 ++ t2) = clients_built t1 ++ clients_built t2.
Proof.
  induction t1 as [|e t1 IH]; simpl; [reflexivity|].
  destruct e; simpl; rewrite ?IH; reflexivity.
Qed.

Lemma loops_started_app (t1 t2 : list Event) :
  loops_started (t1 ++ t2) = loops_started t1 ++ loops_started t2.
Proof.
  induction t1 as [|e t1 IH]; simpl; [reflexivity|].
  destruct e; simpl; rewrite ?IH; reflexivity.
Qed.

Lemma upgrades_app (t1 t2 : list Event) :
  upgrades (t1 ++ t2) = upgrades t1 + upgrades t2.
Proof.
  induction t1 as [|e t1 IH]; simpl; [reflexivity|].
  destruct e; simpl; rewrite ?IH; reflexivity.
Qed.

Lemma statuses_app (t1 t2 : list Event) :
  statuses (t1 ++ t2) = statuses t1 ++ statuses t2.
Proof.
  induction t1 as [|e t1 IH]; simpl; [reflexivity|].
  destruct e; simpl; rewrite ?IH; reflexivity.
Qed.

Lemma loop_events_build_nothing (tr : list Event) :
  forallb loop_event tr = true ->
  clients_built tr = [] /\ loops_started tr = [] /\ upgrades tr = 0
  /\ statuses tr = [].
Proof.
  induction tr as [|e tr IH]; simpl; [auto|].
  intros H. apply andb_prop in H as [He Htr].
  destruct e; simpl in *; try discriminate; auto.
Qed.

Lemma loop_trace_reads (client : Client) (hs : list (Frame * error)) :
  frames_read (loop_trace client hs) = map fst hs
  /\ frames_handled (loop_trace client hs) = map fst hs
  /\ read_errors (loop_trace client hs) = 1
  /\ closes (Conn client) (loop_trace client hs) = 1.
Proof.
  induction hs as [|[m err] hs IH]; simpl.
  - rewrite Nat.eqb_refl. auto.
  - destruct IH as (H1 & H2 & H3 & H4). rewrite H1, H2. auto.
Qed.

Lemma handle_all_frames {App : Type} (messager : MessageHandler App)
    (client : Client) (fs : list Frame) (a : App) :
  map fst (snd (handle_all messager client fs a)) = fs.
Proof.
  revert a. induction fs as [|m fs IH]; intros a; simpl; [reflexivity|].
  destruct (Handle messager client m a) as [a1 err].
  specialize (IH a1). destruct (handle_all messager client fs a1) as [a2 rest].
  simpl in *. now rewrite IH.
Qed.

Section Lifecycle.

Context {Request App : Type}.
Variable Upgrade : Request -> option WsConn.

Implicit Types (w : World App) (s : Sys App) (h : WebsocketHandler Request App).

(** ** The read loop on its own *)

Lemma HandleClient_runs (fuel : nat) :
  forall (client : Client) (messager : MessageHandler App)
         (persister : EnvelopePersister App) w,
  length (readable (Conn client) w) < fuel ->
  exists w',
    HandleClient fuel client messager persister w = Some w'
    /\ trace w' = trace w
         ++ loop_trace client
              (snd (handle_all messager client (readable (Conn client) w) (app w)))
    /\ app w' = fst (handle_all messager client (readable (Conn client) w) (app w))
    /\ readable (Conn client) w' = []
    /\ nextConn w' = nextConn w.
Proof.
  induction fuel as [|fuel IH]; intros client messager persister w Hfuel;
    [lia|].
  simpl. unfold Conn_ReadMessage, readable in *.
  destruct (conns w !! Conn client) as [c|] eqn:Hc.
  - destruct (closed c) eqn:Hcl.
    + eexists. split; [reflexivity|]. simpl.
      unfold Conn_Close. simpl. rewrite Hc. simpl.
      rewrite lookup_insert_eq. simpl.
      rewrite <- app_assoc. auto.
    + destruct (pending c) as [|m rest] eqn:Hp.
      * eexists. split; [reflexivity|]. simpl.
        unfold Conn_Close. simpl. rewrite Hc. simpl.
        rewrite lookup_insert_eq. simpl.
        rewrite <- app_assoc. auto.
      * simpl.
        destruct (Handle messager client m (app w)) as [a err] eqn:Hh.
        set (w2 := emit (EvHandle client m err)
                     (set_app a
                        (emit (EvReadMessage (Conn client) (Some m))
                           (set_conn (Conn client) (MkWsConn rest false) w)))).
        assert (Hr : conns w2 !! Conn client = Some (MkWsConn rest false)).
        { subst w2. simpl. apply lookup_insert_eq. }
        destruct (IH client messager persister w2) as (w' & Hrun & Htr & Happ & Hrd & Hn).
        { rewrite Hr. simpl in *. lia. }
        rewrite Hr in Htr, Happ. simpl in Htr, Happ.
        exists w'. split.
        { destruct err; exact Hrun. }
        destruct (handle_all messager client rest a) as [a2 hs] eqn:Hall.
        simpl in *. rewrite Htr. rewrite <- !app_assoc. simpl.
        repeat split; assumption.
  - eexists. split; [reflexivity|]. simpl.
    unfold Conn_Close. simpl. rewrite Hc. simpl. rewrite Hc.
    rewrite <- app_assoc. auto.
Qed.

Lemma HandleClient_any_persister (fuel : nat) :
  forall (client : Client) (messager : MessageHandler App)
         (persister persister' : EnvelopePersister App) w,
  HandleClient fuel client messager persister w
  = HandleClient fuel client messager persister' w.
Proof.
  induction fuel as [|fuel IH]; intros; simpl; [reflexivity|].
  destruct (Conn_ReadMessage (Conn client) w) as [w1 [message [e|]]];
    [reflexivity|].
  destruct (Handle messager client message (app w1)) as [a [e|]]; apply IH.
Qed.

Lemma HandleClient_sound (fuel : nat) :
  forall (client : Client) (messager : MessageHandler App)
         (persister : EnvelopePersister App) w w',
  HandleClient fuel client messager persister w = Some w' ->
  trace w' = trace w
       ++ loop_trace client
            (snd (handle_all messager client (readable (Conn client) w) (app w)))
  /\ app w' = fst (handle_all messager client (readable (Conn client) w) (app w)).
Proof.
  induction fuel as [|fuel IH]; intros client messager persister w w' Hrun;
    [discriminate|].
  destruct (Nat.lt_ge_cases (length (readable (Conn client) w)) (S fuel))
    as [Hlt|Hge].
  - destruct (HandleClient_runs (S fuel) client messager persister w Hlt)
      as (w'' & Hrun' & Htr & Happ & _).
    rewrite Hrun in Hrun'. injection Hrun' as <-. auto.
  - simpl in Hrun. unfold Conn_ReadMessage, readable in *.
    destruct (conns w !! Conn client) as [c|] eqn:Hc; [|simpl in Hge; lia].
    destruct (closed c) eqn:Hcl; [simpl in Hge; lia|].
    destruct (pending c) as [|m rest] eqn:Hp; [simpl in Hge; lia|].
    simpl in Hrun.
    destruct (Handle messager client m (app w)) as [a err] eqn:Hh.
    set (w2 := emit (EvHandle client m err)
                 (set_app a
                    (emit (EvReadMessage (Conn client) (Some m))
                       (set_conn (Conn client) (MkWsConn rest false) w))))
      in Hrun.
    assert (Hr : conns w2 !! Conn client = Some (MkWsConn rest false)).
    { subst w2. simpl. apply lookup_insert_eq. }
    assert (Hrun2 : HandleClient fuel client messager persister w2 = Some w')
      by (destruct err; exact Hrun).
    apply IH in Hrun2 as [Htr Happ].
    rewrite Hr in Htr, Happ. simpl in Htr, Happ.
    destruct (handle_all messager client rest a) as [a2 hs] eqn:Hall.
    simpl in *. rewrite Hh, Hall, Htr, <- !app_assoc. simpl. auto.
Qed.

(** ** One scheduled step *)

Lemma Conn_Close_trace (conn : ConnRef) w :
  trace (Conn_Close conn w) = trace w ++ [EvClose conn]
  /\ app (Conn_Close conn w) = app w
  /\ nextConn (Conn_Close conn w) = nextConn w.
Proof. unfold Conn_Close. destruct (conns w !! conn); simpl; auto. Qed.

Lemma Conn_ReadMessage_trace (conn : ConnRef) w :
  exists r, trace (fst (Conn_ReadMessage conn w))
            = trace w ++ [EvReadMessage conn r]
  /\ app (fst (Conn_ReadMessage conn w)) = app w
  /\ nextConn (fst (Conn_ReadMessage conn w)) = nextConn w.
Proof.
  unfold Conn_ReadMessage.
  destruct (conns w !! conn) as [c|]; [|eexists; simpl; eauto].
  destruct (closed c); [eexists; simpl; eauto|].
  destruct (pending c); eexists; simpl; eauto.
Qed.

Lemma step_owed (conn : ConnRef) (t : Tid) s :
  exists tr,
    trace (world (step t s)) = trace (world s) ++ tr
    /\ forallb loop_event tr = true
    /\ closes conn tr + owed conn (step t s) = owed conn s
    /\ option_map g_client (loop (step t s)) = option_map g_client (loop s)
    /\ nextConn (world (step t s)) = nextConn (world s).
Proof.
  destruct s as [w ds lp]. destruct t; unfold step; cbn [deferred loop world].
  - destruct ds as [|c rest]; cbn [deferred loop world].
    + exists []. rewrite app_nil_r. auto.
    + exists [EvClose c].
      destruct (Conn_Close_trace c w) as (Htr & _ & Hn).
      unfold owed. cbn [deferred loop world deferred_closes]. rewrite Htr, Hn.
      cbn [closes forallb loop_event andb].
      destruct (Nat.eqb c conn); repeat split; try reflexivity; lia.
  - destruct lp as [g|]; cbn [deferred loop world].
    + destruct g as [client messager persister pc].
      unfold loop_step, owed, at_pc; cbn [g_pc g_client g_messager g_persister].
      destruct pc as [|m| |].
      * destruct (Conn_ReadMessage_trace (Conn client) w) as (r & Htr & _ & Hn).
        destruct (Conn_ReadMessage (Conn client) w) as [w1 [m [e|]]];
          cbn [fst] in Htr, Hn; cbn [deferred loop world g_pc g_client option_map];
          exists [EvReadMessage (Conn client) r];
          rewrite Htr, Hn; destruct (Nat.eqb (Conn client) conn); auto.
      * destruct (Handle messager client m (app w)) as [a [e|]];
          cbn [deferred loop world g_pc g_client option_map];
          eexists [EvHandle client m _]; simpl;
          destruct (Nat.eqb (Conn client) conn); auto.
      * exists [EvClose (Conn client)].
        destruct (Conn_Close_trace (Conn client) w) as (Htr & _ & Hn).
        cbn [deferred loop world g_pc g_client option_map].
        rewrite Htr, Hn. cbn [closes forallb loop_event andb].
        destruct (Nat.eqb (Conn client) conn);
          repeat split; try reflexivity; lia.
      * exists []. rewrite app_nil_r. auto.
    + exists []. rewrite app_nil_r. auto.
Qed.

Lemma run_owed (conn : ConnRef) (sched : list Tid) :
  forall s, exists tr,
    trace (world (run sched s)) = trace (world s) ++ tr
    /\ forallb loop_event tr = true
    /\ closes conn tr + owed conn (run sched s) = owed conn s
    /\ option_map g_client (loop (run sched s)) = option_map g_client (loop s)
    /\ nextConn (world (run sched s)) = nextConn (world s).
Proof.
  induction sched as [|t sched IH]; intros s; simpl.
  - exists []. rewrite app_nil_r. auto.
  - destruct (step_owed conn t s) as (tr1 & H1 & L1 & C1 & G1 & N1).
    destruct (IH (step t s)) as (tr2 & H2 & L2 & C2 & G2 & N2).
    exists (tr1 ++ tr2). unfold run in *. rewrite H2, H1, <- app_assoc.
    rewrite forallb_app, L1, L2, closes_app, G2, G1, N2, N1.
    repeat split; try reflexivity. lia.
Qed.

Lemma finished_owes_nothing (conn : ConnRef) s :
  finished s = true -> owed conn s = 0.
Proof.
  destruct s as [w [|c ds] [g|]]; unfold finished, owed; simpl;
    try discriminate; try reflexivity.
  destruct (g_pc g); try discriminate.
  intros _. destruct (Nat.eqb (Conn (g_client g)) conn); reflexivity.
Qed.

Lemma run_idle (sched : list Tid) w :
  run sched (MkSys w [] None) = MkSys w [] None.
Proof. induction sched as [|[] sched IH]; simpl; auto. Qed.

(** ** The three ways through [ServeHTTP] *)

Lemma ServeHTTP_unauthorized h (r : Request) w :
  is_nil (snd (snd (Validate (WH_SessionValidator h) r (app w)))) = false ->
  let res := Validate (WH_SessionValidator h) r (app w) in
  ServeHTTP Upgrade h r w
  = MkSys (http_Error "Unauthorized" http_StatusUnauthorized
             (emit (EvValidate (fst (snd res)) (snd (snd res)))
                (set_app (fst res) w)))
      [] None.
Proof.
  unfold ServeHTTP.
  destruct (Validate (WH_SessionValidator h) r (app w)) as [a [session [e|]]];
    simpl; [reflexivity | discriminate].
Qed.

Lemma ServeHTTP_upgrade_failed h (r : Request) w :
  snd (snd (Validate (WH_SessionValidator h) r (app w))) = None ->
  Upgrade r = None ->
  let res := Validate (WH_SessionValidator h) r (app w) in
  ServeHTTP Upgrade h r w
  = MkSys (http_Error "WebSocket upgrade failed" http_StatusInternalServerError
             (emit (EvUpgrade None)
                (emit (EvValidate (fst (snd res)) None) (set_app (fst res) w))))
      [] None.
Proof.
  unfold ServeHTTP. intros Hok Hup.
  destruct (Validate (WH_SessionValidator h) r (app w)) as [a [session err]].
  simpl in *. subst err. rewrite Hup. reflexivity.
Qed.

Lemma ServeHTTP_accepted h (r : Request) w (c : WsConn) :
  snd (snd (Validate (WH_SessionValidator h) r (app w))) = None ->
  Upgrade r = Some c ->
  let res := Validate (WH_SessionValidator h) r (app w) in
  let client := NewClient (ClientID (fst (snd res))) (nextConn w) (clock w) in
  ServeHTTP Upgrade h r w
  = MkSys
      {| conns := <[nextConn w := c]> (conns w);
         nextConn := S (nextConn w);
         clock := clock w;
         app := fst res;
         trace := trace w ++ [EvValidate (fst (snd res)) None;
                              EvUpgrade (Some (nextConn w));
                              EvNewClient client; EvGo client] |}
      [nextConn w]
      (Some (MkGoroutine client (WH_MessageHandler h)
               (WH_EnvelopePersister h) AtRead)).
Proof.
  unfold ServeHTTP. intros Hok Hup.
  destruct (Validate (WH_SessionValidator h) r (app w)) as [a [session err]].
  simpl in *. subst err. rewrite Hup. unfold emit; simpl.
  rewrite <- !app_assoc. reflexivity.
Qed.

(** C1. When the validator returns an error, [ServeHTTP] answers 401
    and stops: whatever the scheduler does afterwards, the trace of the
    request is the call of the validator and the 401 answer; no
    handshake is attempted, no handle is built, no read loop is started,
    no frame is handled and no transport is touched. *)
Theorem ServeHTTP_rejects_invalid_session h (r : Request) w (sched : list Tid)
    (Herr : is_nil (snd (snd (Validate (WH_SessionValidator h) r (app w))))
            = false) :
  let res := Validate (WH_SessionValidator h) r (app w) in
  let s := run sched (ServeHTTP Upgrade h r w) in
  trace (world s)
  = trace w ++ [EvValidate (fst (snd res)) (snd (snd res));
                EvHttpError "Unauthorized" http_StatusUnauthorized]
  /\ statuses (trace (world s)) = statuses (trace w) ++ [401]
  /\ upgrades (trace (world s)) = upgrades (trace w)
  /\ clients_built (trace (world s)) = clients_built (trace w)
  /\ loops_started (trace (world s)) = loops_started (trace w)
  /\ frames_handled (trace (world s)) = frames_handled (trace w)
  /\ conns (world s) = conns w
  /\ loop s = None
  /\ deferred s = [].
Proof.
  cbv zeta. rewrite (ServeHTTP_unauthorized h r w Herr). cbv zeta.
  rewrite run_idle. cbn [world loop deferred].
  unfold http_Error, emit, set_app; cbn [trace conns].
  rewrite <- app_assoc. cbn [app].
  rewrite statuses_app, upgrades_app, clients_built_app, loops_started_app,
    frames_handled_app.
  cbn. rewrite !app_nil_r, Nat.add_0_r. repeat split; reflexivity.
Qed.

(** C5. When the validator accepts and the handshake fails,
    [ServeHTTP] answers 500 and stops: no handle is built, no read loop
    is started, no frame is handled, whatever the scheduler does
    afterwards. *)
Theorem ServeHTTP_rejects_failed_upgrade h (r : Request) w (sched : list Tid)
    (Hok : snd (snd (Validate (WH_SessionValidator h) r (app w))) = None)
    (Hup : Upgrade r = None) :
  let res := Validate (WH_SessionValidator h) r (app w) in
  let s := run sched (ServeHTTP Upgrade h r w) in
  trace (world s)
  = trace w ++ [EvValidate (fst (snd res)) None; EvUpgrade None;
                EvHttpError "WebSocket upgrade failed"
                  http_StatusInternalServerError]
  /\ statuses (trace (world s)) = statuses (trace w) ++ [500]
  /\ clients_built (trace (world s)) = clients_built (trace w)
  /\ loops_started (trace (world s)) = loops_started (trace w)
  /\ frames_handled (trace (world s)) = frames_handled (trace w)
  /\ conns (world s) = conns w
  /\ loop s = None
  /\ deferred s = [].
Proof.
  cbv zeta. rewrite (ServeHTTP_upgrade_failed h r w Hok Hup). cbv zeta.
  rewrite run_idle. cbn [world loop deferred].
  unfold http_Error, emit, set_app; cbn [trace conns].
  rewrite <- !app_assoc. cbn [app].
  rewrite statuses_app, clients_built_app, loops_started_app,
    frames_handled_app.
  cbn. rewrite !app_nil_r. repeat split; reflexivity.
Qed.

(** C3. When the validator accepts and the handshake succeeds,
    [ServeHTTP] builds exactly one handle, whose ID is the ClientID of
    the session the validator returned, and starts the read loop for
    that handle; nothing the scheduler does afterwards builds another
    handle or starts another loop. *)
Theorem ServeHTTP_builds_one_client h (r : Request) w (c : WsConn)
    (sched : list Tid)
    (Hok : snd (snd (Validate (WH_SessionValidator h) r (app w))) = None)
    (Hup : Upgrade r = Some c) :
  let session := fst (snd (Validate (WH_SessionValidator h) r (app w))) in
  let client := NewClient (ClientID session) (nextConn w) (clock w) in
  let s0 := ServeHTTP Upgrade h r w in
  let s := run sched s0 in
  ID client = ClientID session
  /\ clients_built (trace (world s)) = clients_built (trace w) ++ [client]
  /\ loops_started (trace (world s)) = loops_started (trace w) ++ [client]
  /\ loop s0 = Some (MkGoroutine client (WH_MessageHandler h)
                       (WH_EnvelopePersister h) AtRead)
  /\ option_map g_client (loop s) = Some client
  /\ conns (world s0) !! Conn client = Some c.
Proof.
  cbv zeta. rewrite (ServeHTTP_accepted h r w c Hok Hup). cbv zeta.
  set (session := fst (snd (Validate (WH_SessionValidator h) r (app w)))).
  set (client := NewClient (ClientID session) (nextConn w) (clock w)).
  match goal with |- context [run sched ?x] => set (s0 := x) end.
  destruct (run_owed (nextConn w) sched s0) as (tr & Htr & Hl & _ & Hg & _).
  destruct (loop_events_build_nothing tr Hl) as (Hb & Hs & _ & _).
  rewrite Htr, Hg. subst s0. cbn [world trace loop option_map g_client conns].
  rewrite !clients_built_app, !loops_started_app, Hb, Hs. cbn.
  rewrite !app_nil_r.
  repeat split; try reflexivity.
  - subst client. destruct (ClientID session) as [u]. reflexivity.
  - apply lookup_insert_eq.
Qed.

(** ** The read loop under the scheduler *)

Lemma step_inflight (t : Tid) s :
  exists tr,
    trace (world (step t s)) = trace (world s) ++ tr
    /\ inflight s ++ frames_read tr = frames_handled tr ++ inflight (step t s).
Proof.
  destruct s as [w ds lp]. destruct t; unfold step; cbn [deferred loop world].
  - destruct ds as [|c rest]; cbn [deferred loop world].
    + exists []. rewrite !app_nil_r. auto.
    + exists [EvClose c]. destruct (Conn_Close_trace c w) as (Htr & _).
      rewrite Htr. unfold inflight. cbn [loop frames_read frames_handled].
      rewrite app_nil_r. auto.
  - destruct lp as [g|]; cbn [deferred loop world].
    + destruct g as [client messager persister pc].
      unfold loop_step, inflight, at_pc;
        cbn [g_pc g_client g_messager g_persister loop].
      destruct pc as [|m| |].
      * unfold Conn_ReadMessage.
        destruct (conns w !! Conn client) as [c|];
          [|eexists; cbn; split; reflexivity].
        destruct (closed c); [eexists; cbn; split; reflexivity|].
        destruct (pending c); eexists; cbn; split; reflexivity.
      * destruct (Handle messager client m (app w)) as [a [e|]];
          eexists; cbn; split; reflexivity.
      * exists [EvClose (Conn client)].
        destruct (Conn_Close_trace (Conn client) w) as (Htr & _).
        cbn [deferred loop world g_pc]. rewrite Htr. auto.
      * exists []. cbn. rewrite !app_nil_r. auto.
    + exists []. cbn. rewrite !app_nil_r. auto.
Qed.

Lemma run_inflight (sched : list Tid) :
  forall s, exists tr,
    trace (world (run sched s)) = trace (world s) ++ tr
    /\ inflight s ++ frames_read tr
       = frames_handled tr ++ inflight (run sched s).
Proof.
  induction sched as [|t sched IH]; intros s; simpl.
  - exists []. cbn. rewrite !app_nil_r. auto.
  - destruct (step_inflight t s) as (tr1 & H1 & F1).
    destruct (IH (step t s)) as (tr2 & H2 & F2).
    exists (tr1 ++ tr2). unfold run in *.
    rewrite H2, H1, <- app_assoc, frames_read_app, frames_handled_app.
    split; [reflexivity|].
    rewrite app_assoc, F1, <- app_assoc, F2, app_assoc. reflexivity.
Qed.

Lemma Conn_ReadMessage_none (conn : ConnRef) w :
  readable conn w = [] ->
  exists e, Conn_ReadMessage conn w
            = (emit (EvReadMessage conn None) w, ([], Some e)).
Proof.
  unfold readable, Conn_ReadMessage.
  destruct (conns w !! conn) as [c|]; [|eexists; reflexivity].
  destruct (closed c); [eexists; reflexivity|].
  intros ->. eexists; reflexivity.
Qed.

Lemma Conn_ReadMessage_some (conn : ConnRef) w (m : Frame) (rest : list Frame) :
  readable conn w = m :: rest ->
  Conn_ReadMessage conn w
  = (emit (EvReadMessage conn (Some m)) (set_conn conn (MkWsConn rest false) w),
     (m, None)).
Proof.
  unfold readable, Conn_ReadMessage.
  destruct (conns w !! conn) as [c|]; [|discriminate].
  destruct (closed c); [discriminate|].
  intros ->. reflexivity.
Qed.

Lemma run_cons (t : Tid) (sched : list Tid) s :
  run (t :: sched) s = run sched (step t s).
Proof. reflexivity. Qed.

Lemma step_loop w (ds : list ConnRef) (g : Goroutine App) :
  step TLoop (MkSys w ds (Some g))
  = MkSys (fst (loop_step g w)) ds (Some (snd (loop_step g w))).
Proof. unfold step. cbn [loop world deferred]. now destruct (loop_step g w). Qed.

Lemma loop_step_read_fail (client : Client) (messager : MessageHandler App)
    (persister : EnvelopePersister App) w w1 (m : Frame) (e : string) :
  Conn_ReadMessage (Conn client) w = (w1, (m, Some e)) ->
  loop_step (MkGoroutine client messager persister AtRead) w
  = (w1, MkGoroutine client messager persister AtClose).
Proof. intros H. unfold loop_step. cbn [g_pc g_client]. now rewrite H. Qed.

Lemma loop_step_read_ok (client : Client) (messager : MessageHandler App)
    (persister : EnvelopePersister App) w w1 (m : Frame) :
  Conn_ReadMessage (Conn client) w = (w1, (m, None)) ->
  loop_step (MkGoroutine client messager persister AtRead) w
  = (w1, MkGoroutine client messager persister (AtHandle m)).
Proof. intros H. unfold loop_step. cbn [g_pc g_client]. now rewrite H. Qed.

Lemma loop_step_handle (client : Client) (messager : MessageHandler App)
    (persister : EnvelopePersister App) w (m : Frame) :
  loop_step (MkGoroutine client messager persister (AtHandle m)) w
  = (emit (EvHandle client m (snd (Handle messager client m (app w))))
       (set_app (fst (Handle messager client m (app w))) w),
     MkGoroutine client messager persister AtRead).
Proof.
  unfold loop_step. cbn [g_pc g_client g_messager].
  destruct (Handle messager client m (app w)) as [a [e|]]; reflexivity.
Qed.

Lemma loop_step_close (client : Client) (messager : MessageHandler App)
    (persister : EnvelopePersister App) w :
  loop_step (MkGoroutine client messager persister AtClose) w
  = (Conn_Close (Conn client) w,
     MkGoroutine client messager persister Finished).
Proof. reflexivity. Qed.

Lemma HandleClient_read_fail (fuel : nat) (client : Client)
    (messager : MessageHandler App) (persister : EnvelopePersister App)
    w w1 (m : Frame) (e : string) :
  Conn_ReadMessage (Conn client) w = (w1, (m, Some e)) ->
  HandleClient (S fuel) client messager persister w
  = Some (Conn_Close (Conn client) w1).
Proof. intros H. cbn [HandleClient]. now rewrite H. Qed.

Lemma HandleClient_read_ok (fuel : nat) (client : Client)
    (messager : MessageHandler App) (persister : EnvelopePersister App)
    w w1 (m : Frame) :
  Conn_ReadMessage (Conn client) w = (w1, (m, None)) ->
  HandleClient (S fuel) client messager persister w
  = HandleClient fuel client messager persister
      (emit (EvHandle client m (snd (Handle messager client m (app w1))))
         (set_app (fst (Handle messager client m (app w1))) w1)).
Proof.
  intros H. cbn [HandleClient]. rewrite H.
  destruct (Handle messager client m (app w1)) as [a [e|]]; reflexivity.
Qed.

(** The goroutine alone, scheduled often enough, does what
    [HandleClient] does. *)
Lemma loop_alone_is_HandleClient (k : nat) :
  forall (client : Client) (messager : MessageHandler App)
         (persister : EnvelopePersister App) w (ds : list ConnRef),
  length (readable (Conn client) w) = k ->
  exists w',
    HandleClient (S k) client messager persister w = Some w'
    /\ run (repeat TLoop (2 * k + 2))
         (MkSys w ds (Some (MkGoroutine client messager persister AtRead)))
       = MkSys w' ds (Some (MkGoroutine client messager persister Finished)).
Proof.
  induction k as [|k IH]; intros client messager persister w ds Hk.
  - destruct (readable (Conn client) w) eqn:Hr; [|discriminate].
    destruct (Conn_ReadMessage_none _ _ Hr) as [e He].
    cbn [Nat.mul Nat.add repeat].
    rewrite run_cons, step_loop, (loop_step_read_fail _ _ _ _ _ _ _ He).
    cbn [fst snd]. rewrite run_cons, step_loop, loop_step_close.
    cbn [fst snd]. rewrite (HandleClient_read_fail _ _ _ _ _ _ _ _ He).
    eexists. split; reflexivity.
  - destruct (readable (Conn client) w) as [|m rest] eqn:Hr; [discriminate|].
    pose proof (Conn_ReadMessage_some _ _ _ _ Hr) as He.
    replace (2 * S k + 2) with (S (S (2 * k + 2))) by lia.
    cbn [repeat].
    rewrite run_cons, step_loop, (loop_step_read_ok _ _ _ _ _ _ He).
    cbn [fst snd]. rewrite run_cons, step_loop, loop_step_handle.
    cbn [fst snd]. rewrite (HandleClient_read_ok _ _ _ _ _ _ _ He).
    apply IH.
    unfold readable. cbn [conns emit set_app set_conn].
    rewrite lookup_insert_eq. cbn. simpl in Hk. lia.
Qed.

(** C4. Started on a transport that still delivers the frames [fs],
    the read loop reads them one by one and hands each to the handler
    before it reads the next, in the order read; the error a [Handle]
    call returns changes nothing in what follows; the loop ends at the
    one read that fails, and only there. Under any scheduling of the
    loop against the rest of the request, the frames handled are the
    frames read, in order, but for the one in flight. *)
Theorem HandleClient_handles_frames_in_order (client : Client)
    (messager : MessageHandler App) (persister : EnvelopePersister App)
    w (fuel : nat)
    (Hfuel : length (readable (Conn client) w) < fuel) :
  let fs := readable (Conn client) w in
  let hs := snd (handle_all messager client fs (app w)) in
  (exists w',
      HandleClient fuel client messager persister w = Some w'
      /\ trace w' = trace w ++ loop_trace client hs
      /\ map fst hs = fs
      /\ frames_read (loop_trace client hs) = fs
      /\ frames_handled (loop_trace client hs) = fs
      /\ read_errors (loop_trace client hs) = 1)
  /\ (forall (sched : list Tid) (ds : list ConnRef),
        let s := run sched
                   (MkSys w ds
                      (Some (MkGoroutine client messager persister AtRead))) in
        exists tr,
          trace (world s) = trace w ++ tr
          /\ frames_read tr = frames_handled tr ++ inflight s).
Proof.
  cbv zeta. split.
  - destruct (HandleClient_runs fuel client messager persister w Hfuel)
      as (w' & Hrun & Htr & _).
    destruct (loop_trace_reads client
                (snd (handle_all messager client
                        (readable (Conn client) w) (app w))))
      as (Hr & Hh & He & _).
    exists w'. rewrite Hr, Hh, handle_all_frames.
    repeat split; try reflexivity; assumption.
  - intros sched ds.
    destruct (run_inflight sched
                (MkSys w ds (Some (MkGoroutine client messager persister AtRead))))
      as (tr & Htr & Hin).
    exists tr. split; [exact Htr|]. exact Hin.
Qed.

(** C10. The read loop never calls the persister it is given: its
    result is the same whatever persister it receives, the only events
    it adds are reads, handler calls and the close, and the application
    heap it leaves is the one the handler calls alone produce. A
    scheduled step of the loop does not depend on the persister
    either. *)
Theorem HandleClient_never_calls_persister (client : Client)
    (messager : MessageHandler App) (persister persister' : EnvelopePersister App)
    w (fuel : nat) :
  HandleClient fuel client messager persister w
  = HandleClient fuel client messager persister' w
  /\ (forall w', HandleClient fuel client messager persister w = Some w' ->
        app w' = fst (handle_all messager client
                        (readable (Conn client) w) (app w))
        /\ exists hs, trace w' = trace w ++ loop_trace client hs)
  /\ (forall pc : LoopPC,
        fst (loop_step (MkGoroutine client messager persister pc) w)
        = fst (loop_step (MkGoroutine client messager persister' pc) w)).
Proof.
  split; [apply HandleClient_any_persister|]. split.
  - intros w' Hrun. apply HandleClient_sound in Hrun as [Htr Happ].
    split; [exact Happ|]. eexists. exact Htr.
  - intros pc. unfold loop_step. cbn [g_pc g_client g_messager].
    destruct pc as [|m| |]; try reflexivity.
    + destruct (Conn_ReadMessage (Conn client) w) as [w1 [m [e|]]]; reflexivity.
    + destruct (Handle messager client m (app w)) as [a [e|]]; reflexivity.
Qed.

(** ** Closing the transport *)

Lemma readable_after_Close (conn : ConnRef) w :
  readable conn (Conn_Close conn w) = [].
Proof.
  unfold readable, Conn_Close.
  destruct (conns w !! conn) as [c|] eqn:Hc; cbn [conns emit set_conn].
  - rewrite lookup_insert_eq. reflexivity.
  - rewrite Hc. reflexivity.
Qed.

(** When [ServeHTTP] returns before the goroutine is scheduled, which
    is what happens right after the [go] statement, the transport is
    closed before a single frame is read. *)
Lemma return_then_loop (client : Client) (messager : MessageHandler App)
    (persister : EnvelopePersister App) w :
  let s := run [TServe; TLoop; TLoop]
             (MkSys w [Conn client]
                (Some (MkGoroutine client messager persister AtRead))) in
  finished s = true
  /\ trace (world s)
     = trace w ++ [EvClose (Conn client); EvReadMessage (Conn client) None;
                   EvClose (Conn client)].
Proof.
  cbv zeta.
  destruct (Conn_ReadMessage_none _ _ (readable_after_Close (Conn client) w))
    as [e He].
  assert (Hs : run [TServe; TLoop; TLoop]
                 (MkSys w [Conn client]
                    (Some (MkGoroutine client messager persister AtRead)))
               = MkSys (Conn_Close (Conn client)
                          (emit (EvReadMessage (Conn client) None)
                             (Conn_Close (Conn client) w)))
                   [] (Some (MkGoroutine client messager persister Finished))).
  { rewrite run_cons. unfold step at 1. cbn [deferred loop world].
    rewrite run_cons, step_loop, (loop_step_read_fail _ _ _ _ _ _ _ He).
    cbn [fst snd]. rewrite run_cons, step_loop, loop_step_close.
    reflexivity. }
  rewrite Hs. split; [reflexivity|]. cbn [world].
  destruct (Conn_Close_trace (Conn client)
              (emit (EvReadMessage (Conn client) None)
                 (Conn_Close (Conn client) w))) as (H1 & _).
  destruct (Conn_Close_trace (Conn client) w) as (H2 & _).
  rewrite H1. cbn [trace emit]. rewrite H2, <- !app_assoc. reflexivity.
Qed.

(** C2, what the code does. An accepted connection has its transport
    closed twice on every path to the end: once by the deferred call of
    [ServeHTTP], once by [HandleClient] after its loop. *)
Theorem accepted_connection_is_closed_twice h (r : Request) w (c : WsConn)
    (sched : list Tid)
    (Hok : snd (snd (Validate (WH_SessionValidator h) r (app w))) = None)
    (Hup : Upgrade r = Some c)
    (Hfin : finished (run sched (ServeHTTP Upgrade h r w)) = true) :
  exists tr,
    trace (world (run sched (ServeHTTP Upgrade h r w)))
    = trace (world (ServeHTTP Upgrade h r w)) ++ tr
    /\ closes (nextConn w) tr = 2.
Proof.
  destruct (run_owed (nextConn w) sched (ServeHTTP Upgrade h r w))
    as (tr & Htr & _ & Hc & _).
  exists tr. split; [exact Htr|].
  rewrite (finished_owes_nothing _ _ Hfin) in Hc.
  rewrite (ServeHTTP_accepted h r w c Hok Hup) in Hc.
  unfold owed in Hc.
  cbn [deferred loop deferred_closes g_client g_pc Conn NewClient] in Hc.
  rewrite Nat.eqb_refl in Hc. lia.
Qed.

(** Such an end is reached: the accepted connection of any request
    finishes under the schedule in which [ServeHTTP] returns first. *)
Lemma accepted_connection_finishes h (r : Request) w (c : WsConn) :
  snd (snd (Validate (WH_SessionValidator h) r (app w))) = None ->
  Upgrade r = Some c ->
  finished (run [TServe; TLoop; TLoop] (ServeHTTP Upgrade h r w)) = true
  /\ exists tr0,
       trace (world (run [TServe; TLoop; TLoop] (ServeHTTP Upgrade h r w)))
       = tr0 ++ [EvClose (nextConn w); EvReadMessage (nextConn w) None;
                 EvClose (nextConn w)].
Proof.
  intros Hok Hup. rewrite (ServeHTTP_accepted h r w c Hok Hup). cbv zeta.
  match goal with
  | |- context [MkSys ?w0 _ (Some (MkGoroutine ?cl ?m ?p AtRead))] =>
      destruct (return_then_loop cl m p w0) as [Hf Ht]
  end.
  cbn [Conn NewClient] in Hf, Ht.
  split; [exact Hf|]. eexists. exact Ht.
Qed.

Lemma run_app (s1 s2 : list Tid) s : run (s1 ++ s2) s = run s2 (run s1 s).
Proof. unfold run. apply fold_left_app. Qed.

(** It is reached as well when the goroutine runs first and reads all
    the peer sends before [ServeHTTP] returns. *)
Lemma accepted_connection_finishes_loop_first h (r : Request) w (c : WsConn) :
  snd (snd (Validate (WH_SessionValidator h) r (app w))) = None ->
  Upgrade r = Some c ->
  closed c = false ->
  finished (run (repeat TLoop (2 * length (pending c) + 2) ++ [TServe])
              (ServeHTTP Upgrade h r w)) = true.
Proof.
  intros Hok Hup Hopen. rewrite (ServeHTTP_accepted h r w c Hok Hup). cbv zeta.
  rewrite run_app.
  match goal with
  | |- context [MkSys ?w0 ?ds (Some (MkGoroutine ?cl ?m ?p AtRead))] =>
      destruct (loop_alone_is_HandleClient (length (pending c)) cl m p w0 ds)
        as (w' & _ & Hsched)
  end.
  - unfold readable. cbn [conns Conn NewClient].
    rewrite lookup_insert_eq, Hopen. reflexivity.
  - rewrite Hsched. reflexivity.
Qed.

(** ** Several connections *)

Lemma accept_cons h (r : Request) (rs : list Request) w :
  accept Upgrade h (r :: rs) w
  = let s := run [TServe] (ServeHTTP Upgrade h r w) in
    (fst (accept Upgrade h rs (world s)),
     match live_client s with
     | Some c => c :: snd (accept Upgrade h rs (world s))
     | None => snd (accept Upgrade h rs (world s))
     end).
Proof.
  cbn [accept]. cbv zeta.
  destruct (accept Upgrade h rs (world (run [TServe] (ServeHTTP Upgrade h r w))));
    reflexivity.
Qed.

Lemma NewClient_ID (id : Identity) (conn : ConnRef) (now : Time) :
  ID (NewClient id conn now) = id.
Proof. destruct id; reflexivity. Qed.

Lemma accepted_sessions_cons h (r : Request) (rs : list Request) (a : App) :
  accepted_sessions Upgrade h (r :: rs) a
  = let res := Validate (WH_SessionValidator h) r a in
    match snd (snd res), Upgrade r with
    | None, Some _ =>
        fst (snd res) :: accepted_sessions Upgrade h rs (fst res)
    | _, _ => accepted_sessions Upgrade h rs (fst res)
    end.
Proof.
  cbn [accepted_sessions]. cbv zeta.
  destruct (Validate (WH_SessionValidator h) r a) as [a' [session err]].
  reflexivity.
Qed.

Lemma run_serve_returns w (c : ConnRef) (lp : option (Goroutine App)) :
  run [TServe] (MkSys w [c] lp) = MkSys (Conn_Close c w) [] lp.
Proof. reflexivity. Qed.

Lemma serve_and_return h (r : Request) w :
  let res := Validate (WH_SessionValidator h) r (app w) in
  let s := run [TServe] (ServeHTTP Upgrade h r w) in
  app (world s) = fst res
  /\ match snd (snd res), Upgrade r with
     | None, Some _ =>
         live_client s
         = Some (NewClient (ClientID (fst (snd res))) (nextConn w) (clock w))
         /\ nextConn (world s) = S (nextConn w)
     | _, _ => live_client s = None /\ nextConn (world s) = nextConn w
     end.
Proof.
  cbv zeta.
  destruct (snd (snd (Validate (WH_SessionValidator h) r (app w))))
    as [e|] eqn:Herr.
  - rewrite ServeHTTP_unauthorized by (rewrite Herr; reflexivity).
    cbv zeta. rewrite run_idle. cbn. auto.
  - destruct (Upgrade r) as [c|] eqn:Hup.
    + rewrite (ServeHTTP_accepted h r w c Herr Hup). cbv zeta.
      rewrite run_serve_returns.
      cbn [world live_client loop g_pc g_client].
      match goal with |- context [Conn_Close ?n ?w0] =>
        destruct (Conn_Close_trace n w0) as (_ & Happ & Hn) end.
      rewrite Happ, Hn. cbn. auto.
    + rewrite (ServeHTTP_upgrade_failed h r w Herr Hup).
      cbv zeta. rewrite run_idle. cbn. auto.
Qed.

Lemma accept_spec h (rs : list Request) :
  forall w,
    map ID (snd (accept Upgrade h rs w))
    = map ClientID (accepted_sessions Upgrade h rs (app w))
    /\ Forall (fun c => nextConn w <= Conn c) (snd (accept Upgrade h rs w))
    /\ NoDup (map Conn (snd (accept Upgrade h rs w))).
Proof.
  induction rs as [|r rs IH]; intros w.
  - cbn. repeat split; constructor.
  - rewrite accept_cons, accepted_sessions_cons. cbv zeta. cbn [snd].
    destruct (serve_and_return h r w) as [Happ Hcase].
    destruct (IH (world (run [TServe] (ServeHTTP Upgrade h r w))))
      as (Hid & Hge & Hnd).
    rewrite Happ in Hid.
    destruct (snd (snd (Validate (WH_SessionValidator h) r (app w))))
      as [e|]; [|destruct (Upgrade r) as [c|]].
    + destruct Hcase as [Hlive Hn]. rewrite Hlive. rewrite Hn in Hge.
      destruct (Upgrade r); auto.
    + destruct Hcase as [Hlive Hn]. rewrite Hlive. rewrite Hn in Hge.
      cbn [map]. rewrite Hid, NewClient_ID. split; [reflexivity|]. split.
      * constructor; [cbn; lia|].
        eapply Forall_impl; [exact Hge|]. cbn. intros x Hx. lia.
      * cbn [Conn NewClient]. apply NoDup_cons_2; [|exact Hnd].
        rewrite list_elem_of_In, in_map_iff. intros (x & Hx & Hin).
        rewrite Forall_forall in Hge.
        apply list_elem_of_In, Hge in Hin. lia.
    + destruct Hcase as [Hlive Hn]. rewrite Hlive. rewrite Hn in Hge. auto.
Qed.

(** C8, what the code guarantees. A handle carries the ClientID the
    validator returned for its request and keeps it as long as its loop
    runs; the handles of one server are distinct as handles, each with a
    transport of its own; their IDs are pairwise distinct exactly when
    the ClientIDs the validator returned are. *)
Theorem handles_carry_the_validated_identity h (rs : list Request) w :
  let cs := snd (accept Upgrade h rs w) in
  let sessions := accepted_sessions Upgrade h rs (app w) in
  map ID cs = map ClientID sessions
  /\ NoDup (map Conn cs)
  /\ (NoDup (map ID cs) <-> NoDup (map ClientID sessions))
  /\ (forall (g : Goroutine App) w',
        g_client (snd (loop_step g w')) = g_client g).
Proof.
  cbv zeta. destruct (accept_spec h rs w) as (Hid & _ & Hnd).
  split; [exact Hid|]. split; [exact Hnd|]. split; [now rewrite Hid|].
  intros g w'. unfold loop_step. destruct (g_pc g) as [|m| |]; try reflexivity.
  - destruct (Conn_ReadMessage (Conn (g_client g)) w') as [w1 [m [e|]]];
      reflexivity.
  - destruct (Handle (g_messager g) (g_client g) m (app w')) as [a [e|]];
      reflexivity.
Qed.

(* ------------------------------------------------------------------ *)
(** ** Further properties of the lifecycle *)

(** *** What the read loop leaves alone *)

Lemma Conn_Close_conns (conn : ConnRef) w :
  (forall other, other <> conn ->
     conns (Conn_Close conn w) !! other = conns w !! other)
  /\ (forall c, conns w !! conn = Some c ->
        conns (Conn_Close conn w) !! conn = Some (MkWsConn (pending c) true))
  /\ (conns w !! conn = None -> conns (Conn_Close conn w) !! conn = None)
  /\ clock (Conn_Close conn w) = clock w.
Proof.
  unfold Conn_Close.
  destruct (conns w !! conn) as [c|] eqn:Hc; cbn [conns clock emit set_conn].
  - split; [intros other Hne; now rewrite lookup_insert_ne|].
    split; [intros c' [= <-]; apply lookup_insert_eq|].
    split; [discriminate | reflexivity].
  - split; [reflexivity|]. split; [discriminate|]. auto.
Qed.

Lemma Conn_ReadMessage_conns (conn : ConnRef) w :
  (forall other, other <> conn ->
     conns (fst (Conn_ReadMessage conn w)) !! other = conns w !! other)
  /\ clock (fst (Conn_ReadMessage conn w)) = clock w
  /\ readable conn (fst (Conn_ReadMessage conn w)) = tail (readable conn w)
  /\ (snd (snd (Conn_ReadMessage conn w)) = None
        <-> readable conn w <> [])
  /\ (forall c, conns w !! conn = Some c ->
        exists c', conns (fst (Conn_ReadMessage conn w)) !! conn = Some c'
                   /\ closed c' = closed c).
Proof.
  unfold Conn_ReadMessage, readable.
  destruct (conns w !! conn) as [c|] eqn:Hc.
  - destruct (closed c) eqn:Hcl; cbn [fst snd conns clock emit set_conn].
    + rewrite Hc, Hcl. repeat split; try reflexivity; try discriminate;
        try congruence. intros c' [= <-]. eauto.
    + destruct (pending c) as [|m rest] eqn:Hp;
        cbn [fst snd conns clock emit set_conn].
      * rewrite Hc, Hcl, Hp. repeat split; try reflexivity; try discriminate;
          try congruence. intros c' [= <-]. eauto.
      * rewrite lookup_insert_eq. cbn.
        split; [intros other Hne; now rewrite lookup_insert_ne|].
        repeat split; try reflexivity; try discriminate.
        intros c' [= <-]. eauto.
  - cbn [fst snd conns clock emit]. rewrite Hc.
    repeat split; try reflexivity; try discriminate; congruence.
Qed.

Lemma HandleClient_frame (fuel : nat) :
  forall (client : Client) (messager : MessageHandler App)
         (persister : EnvelopePersister App) w w',
  HandleClient fuel client messager persister w = Some w' ->
  (forall other, other <> Conn client -> conns w' !! other = conns w !! other)
  /\ nextConn w' = nextConn w
  /\ clock w' = clock w
  /\ (forall c, conns w !! Conn client = Some c ->
        exists c', conns w' !! Conn client = Some c' /\ closed c' = true).
Proof.
  induction fuel as [|fuel IH]; intros client messager persister w w' Hrun;
    [discriminate|].
  destruct (Conn_ReadMessage_conns (Conn client) w)
    as (Hother & Hclock & _ & _ & Hown).
  destruct (Conn_ReadMessage_trace (Conn client) w) as (r & _ & _ & Hnext).
  destruct (Conn_ReadMessage (Conn client) w) as [w1 [m [e|]]] eqn:Hread;
    cbn [fst snd] in *.
  - rewrite (HandleClient_read_fail _ _ _ _ _ _ _ _ Hread) in Hrun.
    injection Hrun as <-.
    destruct (Conn_Close_conns (Conn client) w1) as (Ho & Hc & _ & Hck).
    destruct (Conn_Close_trace (Conn client) w1) as (_ & _ & Hn).
    split; [intros other Hne; rewrite Ho, Hother; auto|].
    split; [congruence|]. split; [congruence|].
    intros c Hc0. destruct (Hown c Hc0) as (c1 & Hc1 & _).
    rewrite (Hc c1 Hc1). eauto.
  - rewrite (HandleClient_read_ok _ _ _ _ _ _ _ Hread) in Hrun.
    apply IH in Hrun as (Ho & Hn & Hck & Hc).
    cbn [conns nextConn clock emit set_app] in *.
    split; [intros other Hne; rewrite Ho, Hother; auto|].
    split; [congruence|]. split; [congruence|].
    intros c Hc0. destruct (Hown c Hc0) as (c1 & Hc1 & _). eauto.
Qed.

(** X1. [HandleClient] touches the transport of its own handle and no
    other: every other transport of the world is as it was, no address
    is handed out, the clock is not read; and the transport of the
    handle, if there is one, is closed when the function returns. *)
Theorem HandleClient_touches_only_its_transport (fuel : nat) (client : Client)
    (messager : MessageHandler App) (persister : EnvelopePersister App) w w'
    (Hrun : HandleClient fuel client messager persister w = Some w') :
  (forall other, other <> Conn client -> conns w' !! other = conns w !! other)
  /\ nextConn w' = nextConn w
  /\ clock w' = clock w
  /\ readable (Conn client) w' = []
  /\ (forall c, conns w !! Conn client = Some c ->
        exists c', conns w' !! Conn client = Some c' /\ closed c' = true).
Proof.
  destruct (HandleClient_frame fuel client messager persister w w' Hrun)
    as (Ho & Hn & Hck & Hc).
  repeat split; try assumption.
  unfold readable. destruct (conns w !! Conn client) as [c|] eqn:Hc0.
  - destruct (Hc c eq_refl) as (c' & -> & ->). reflexivity.
  - clear Hc. revert w w' Hrun Ho Hn Hck Hc0.
    induction fuel as [|fuel IH]; intros w w' Hrun _ _ _ Hc0; [discriminate|].
    cbn [HandleClient] in Hrun. unfold Conn_ReadMessage in Hrun.
    rewrite Hc0 in Hrun. injection Hrun as <-.
    unfold Conn_Close. cbn [conns emit]. rewrite Hc0. cbn [conns emit].
    rewrite Hc0. reflexivity.
Qed.

(** *** Once closed, always closed *)

Lemma readable_ext (conn : ConnRef) w1 w2 :
  conns w1 !! conn = conns w2 !! conn -> readable conn w1 = readable conn w2.
Proof. unfold readable. now intros ->. Qed.

Lemma readable_Conn_Close (conn c : ConnRef) w :
  readable conn (Conn_Close c w)
  = if Nat.eqb c conn then [] else readable conn w.
Proof.
  destruct (Nat.eqb_spec c conn) as [->|Hne].
  - apply readable_after_Close.
  - apply readable_ext.
    destruct (Conn_Close_conns c w) as (Ho & _). apply Ho. congruence.
Qed.

Lemma readable_Conn_ReadMessage (conn c : ConnRef) w :
  readable conn (fst (Conn_ReadMessage c w))
  = if Nat.eqb c conn then tail (readable conn w) else readable conn w.
Proof.
  destruct (Conn_ReadMessage_conns c w) as (Ho & _ & Ht & _).
  destruct (Nat.eqb_spec c conn) as [->|Hne]; [exact Ht|].
  apply readable_ext, Ho. congruence.
Qed.

Lemma loop_step_readable (conn : ConnRef) (g : Goroutine App) w :
  length (readable conn (fst (loop_step g w))) <= length (readable conn w).
Proof.
  destruct g as [client messager persister pc]. destruct pc as [|m| |].
  - pose proof (readable_Conn_ReadMessage conn (Conn client) w) as Hr.
    unfold loop_step. cbn [g_pc g_client].
    destruct (Conn_ReadMessage (Conn client) w) as [w1 [m [e|]]];
      cbn [fst] in *; rewrite Hr;
      destruct (Nat.eqb (Conn client) conn); try lia;
      destruct (readable conn w); cbn; lia.
  - rewrite loop_step_handle. cbn [fst]. unfold readable. cbn. lia.
  - rewrite loop_step_close. cbn [fst]. rewrite readable_Conn_Close.
    destruct (Nat.eqb (Conn client) conn); cbn; lia.
  - cbn. lia.
Qed.

Lemma step_readable (conn : ConnRef) (t : Tid) s :
  length (readable conn (world (step t s)))
  <= length (readable conn (world s)).
Proof.
  destruct s as [w ds lp]. destruct t; unfold step; cbn [deferred loop world].
  - destruct ds as [|c rest]; cbn [world]; [lia|].
    rewrite readable_Conn_Close. destruct (Nat.eqb c conn); cbn; lia.
  - destruct lp as [g|]; cbn [world]; [|lia].
    pose proof (loop_step_readable conn g w) as H.
    destruct (loop_step g w) as [w' g']. exact H.
Qed.

Lemma step_starved (t : Tid) s :
  starved s ->
  starved (step t s)
  /\ exists tr, trace (world (step t s)) = trace (world s) ++ tr
               /\ frames_read tr = [].
Proof.
  intros Hq. split.
  - destruct (step_owed 0 t s) as (_ & _ & _ & _ & Hg & _).
    pose proof (fun conn => step_readable conn t s) as Hle.
    unfold starved in *. destruct (loop (step t s)) as [g'|]; [|exact I].
    destruct (loop s) as [g|]; [|discriminate].
    cbn in Hg. injection Hg as Hg. rewrite Hg.
    specialize (Hle (Conn (g_client g))). rewrite Hq in Hle.
    destruct (readable (Conn (g_client g)) (world (step t s)));
      [reflexivity | cbn in Hle; lia].
  - destruct s as [w ds lp]. unfold starved in Hq. cbn [loop world] in Hq.
    destruct t; unfold step; cbn [deferred loop world].
    + destruct ds as [|c rest]; cbn [world].
      * exists []. rewrite app_nil_r. auto.
      * exists [EvClose c]. destruct (Conn_Close_trace c w) as (-> & _). auto.
    + destruct lp as [g|]; cbn [world]; [|exists []; rewrite app_nil_r; auto].
      destruct g as [client messager persister pc]. cbn [g_client] in Hq.
      destruct pc as [|m| |].
      * destruct (Conn_ReadMessage_none _ _ Hq) as [e He].
        rewrite (loop_step_read_fail _ _ _ _ _ _ _ He). cbn [world].
        exists [EvReadMessage (Conn client) None]. auto.
      * rewrite loop_step_handle. cbn [world].
        eexists [EvHandle client m _]. cbn. auto.
      * rewrite loop_step_close. cbn [world].
        exists [EvClose (Conn client)].
        destruct (Conn_Close_trace (Conn client) w) as (-> & _). auto.
      * exists []. cbn. rewrite app_nil_r. auto.
Qed.

Lemma run_starved (sched : list Tid) :
  forall s, starved s ->
  exists tr, trace (world (run sched s)) = trace (world s) ++ tr
             /\ frames_read tr = [].
Proof.
  induction sched as [|t sched IH]; intros s Hq.
  - exists []. cbn. rewrite app_nil_r. auto.
  - destruct (step_starved t s Hq) as (Hq' & tr1 & H1 & F1).
    destruct (IH (step t s) Hq') as (tr2 & H2 & F2).
    exists (tr1 ++ tr2). rewrite run_cons, H2, H1, <- app_assoc.
    rewrite frames_read_app, F1, F2. auto.
Qed.

(** X2. When [ServeHTTP] returns before the goroutine has read, which
    the [go] statement right before the return makes the usual order,
    the connection is dead on arrival: whatever the peer has sent and
    however the goroutine is scheduled afterwards, no frame is read and
    the handler is never called. *)
Theorem return_first_loses_every_frame h (r : Request) w (c : WsConn)
    (sched : list Tid)
    (Hok : snd (snd (Validate (WH_SessionValidator h) r (app w))) = None)
    (Hup : Upgrade r = Some c) :
  let s0 := ServeHTTP Upgrade h r w in
  let s := run (TServe :: sched) s0 in
  exists tr,
    trace (world s) = trace (world s0) ++ EvClose (nextConn w) :: tr
    /\ frames_read tr = []
    /\ frames_handled tr = []
    /\ inflight s = [].
Proof.
  cbv zeta. rewrite (ServeHTTP_accepted h r w c Hok Hup). cbv zeta.
  rewrite run_cons. unfold step at 1. cbn [deferred loop world].
  match goal with |- context [run sched ?x] => set (s1 := x) end.
  assert (Hq : starved s1).
  { subst s1. unfold starved. cbn [loop world g_client Conn NewClient].
    apply readable_after_Close. }
  destruct (run_starved sched s1 Hq) as (tr & Htr & Hfr).
  destruct (run_inflight sched s1) as (tr' & Htr' & Hin).
  rewrite Htr in Htr'. apply app_inv_head in Htr'. subst tr'.
  rewrite Hfr in Hin. subst s1. unfold inflight at 1 in Hin.
  cbn [loop g_pc app] in Hin. symmetry in Hin.
  apply app_eq_nil in Hin as [Hh Hi].
  exists tr. rewrite Htr. cbn [world].
  match goal with |- context [Conn_Close ?n ?w0] =>
    destruct (Conn_Close_trace n w0) as (-> & _) end.
  cbn [trace]. rewrite <- !app_assoc. cbn [app]. auto.
Qed.

(** *** Every fair schedule ends *)







(** *** Every request, one outcome *)

Lemma loop_events_validate_nothing (tr : list Event) :
  forallb loop_event tr = true -> validations tr = 0.
Proof.
  induction tr as [|e tr IH]; simpl; [auto|].
  intros H. apply andb_prop in H as [He Htr].
  destruct e; simpl in *; try discriminate; auto.
Qed.

Lemma validations_app (t1 t2 : list Event) :
  validations (t1 ++ t2) = validations t1 + validations t2.
Proof.
  induction t1 as [|e t1 IH]; simpl; [reflexivity|].
  destruct e; simpl; rewrite ?IH; reflexivity.
Qed.

Lemma ServeHTTP_outcome h (r : Request) w (sched : list Tid) :
  let res := Validate (WH_SessionValidator h) r (app w) in
  let s := run sched (ServeHTTP Upgrade h r w) in
  exists tr,
    trace (world s)
    = trace w ++ EvValidate (fst (snd res)) (snd (snd res)) :: tr
    /\ validations tr = 0
    /\ match snd (snd res), Upgrade r with
       | Some _, _ =>
           statuses tr = [401] /\ upgrades tr = 0
           /\ clients_built tr = [] /\ loops_started tr = []
       | None, None =>
           statuses tr = [500] /\ upgrades tr = 1
           /\ clients_built tr = [] /\ loops_started tr = []
       | None, Some _ =>
           let client :=
             NewClient (ClientID (fst (snd res))) (nextConn w) (clock w) in
           statuses tr = [] /\ upgrades tr = 1
           /\ clients_built tr = [client] /\ loops_started tr = [client]
       end.
Proof.
  cbv zeta.
  destruct (snd (snd (Validate (WH_SessionValidator h) r (app w))))
    as [e|] eqn:Herr.
  - rewrite ServeHTTP_unauthorized by (rewrite Herr; reflexivity).
    cbv zeta. rewrite run_idle, Herr. cbn [world].
    eexists [EvHttpError _ _]. unfold http_Error, emit, set_app. cbn [trace].
    rewrite <- app_assoc. cbn. auto 10.
  - destruct (Upgrade r) as [c|] eqn:Hup.
    + rewrite (ServeHTTP_accepted h r w c Herr Hup). cbv zeta.
      match goal with |- context [run sched ?x] => set (s0 := x) end.
      destruct (run_owed 0 sched s0) as (tr & Htr & Hl & _).
      destruct (loop_events_build_nothing tr Hl) as (Hb & Hs & Hu & Hst).
      pose proof (loop_events_validate_nothing tr Hl) as Hv.
      eexists (EvUpgrade _ :: EvNewClient _ :: EvGo _ :: tr).
      rewrite Htr. subst s0. cbn [world trace].
      rewrite <- app_assoc. cbn [app].
      split; [reflexivity|]. cbn. rewrite Hb, Hs, Hu, Hst, Hv. auto 10.
    + rewrite (ServeHTTP_upgrade_failed h r w Herr Hup).
      cbv zeta. rewrite run_idle. cbn [world].
      eexists [EvUpgrade None; EvHttpError _ _].
      unfold http_Error, emit, set_app. cbn [trace].
      rewrite <- !app_assoc. cbn. auto 10.
Qed.


(** *** A server and its requests *)

Lemma serve_and_return_conns h (r : Request) w :
  let s := run [TServe] (ServeHTTP Upgrade h r w) in
  (forall conn, conn <> nextConn w ->
     conns (world s) !! conn = conns w !! conn)
  /\ match live_client s with
     | Some c => Conn c = nextConn w /\ readable (Conn c) (world s) = []
     | None => True
     end.
Proof.
  cbv zeta.
  destruct (snd (snd (Validate (WH_SessionValidator h) r (app w))))
    as [e|] eqn:Herr.
  - rewrite ServeHTTP_unauthorized by (rewrite Herr; reflexivity).
    cbv zeta. rewrite run_idle. cbn. auto.
  - destruct (Upgrade r) as [c|] eqn:Hup.
    + rewrite (ServeHTTP_accepted h r w c Herr Hup). cbv zeta.
      rewrite run_serve_returns.
      cbn [world live_client loop g_pc g_client Conn NewClient].
      split; [|split; [reflexivity | apply readable_after_Close]].
      intros conn Hne.
      match goal with |- context [Conn_Close ?n ?w0] =>
        destruct (Conn_Close_conns n w0) as (Ho & _) end.
      rewrite Ho by exact Hne. cbn [conns]. now rewrite lookup_insert_ne.
    + rewrite (ServeHTTP_upgrade_failed h r w Herr Hup).
      cbv zeta. rewrite run_idle. cbn. auto.
Qed.

Lemma serve_and_return_nextConn h (r : Request) w :
  nextConn w <= nextConn (world (run [TServe] (ServeHTTP Upgrade h r w))).
Proof.
  destruct (serve_and_return h r w) as [_ Hcase].
  destruct (snd (snd (Validate (WH_SessionValidator h) r (app w))));
    [|destruct (Upgrade r)]; destruct Hcase as [_ ->]; lia.
Qed.

Lemma accept_keeps_closed h (rs : list Request) :
  forall w (conn : ConnRef),
    conn < nextConn w ->
    readable conn w = [] ->
    readable conn (fst (accept Upgrade h rs w)) = [].
Proof.
  induction rs as [|r rs IH]; intros w conn Hlt Hr; [exact Hr|].
  rewrite accept_cons. cbv zeta. cbn [fst].
  destruct (serve_and_return_conns h r w) as [Ho _].
  pose proof (serve_and_return_nextConn h r w) as Hn.
  apply IH; [lia|].
  rewrite <- Hr. apply readable_ext, Ho. lia.
Qed.

Lemma accept_accounts h (rs : list Request) :
  forall w, exists tr,
    trace (fst (accept Upgrade h rs w)) = trace w ++ tr
    /\ validations tr = length rs
    /\ statuses tr = rejections Upgrade h rs (app w)
    /\ clients_built tr = snd (accept Upgrade h rs w)
    /\ loops_started tr = snd (accept Upgrade h rs w)
    /\ length (statuses tr) + length (snd (accept Upgrade h rs w))
       = length rs.
Proof.
  induction rs as [|r rs IH]; intros w.
  - exists []. cbn. rewrite app_nil_r. auto 10.
  - rewrite accept_cons. cbv zeta. cbn [fst snd].
    destruct (serve_and_return h r w) as [Happ Hlive].
    destruct (ServeHTTP_outcome h r w [TServe]) as (tr1 & Htr1 & Hv1 & Hcase).
    cbv zeta in Htr1, Hcase.
    destruct (IH (world (run [TServe] (ServeHTTP Upgrade h r w))))
      as (tr2 & Htr2 & Hv2 & Hst2 & Hcb2 & Hls2 & Hlen2).
    rewrite Happ in Hst2. rewrite Hst2 in Hlen2.
    set (s1 := run [TServe] (ServeHTTP Upgrade h r w)) in *.
    set (cs2 := snd (accept Upgrade h rs (world s1))) in *.
    eexists (_ :: tr1 ++ tr2).
    rewrite Htr2, Htr1, <- app_assoc. cbn [app].
    split; [reflexivity|].
    cbn [validations statuses clients_built loops_started length].
    rewrite validations_app, statuses_app, clients_built_app,
      loops_started_app, Hv1, Hv2, Hst2, Hcb2, Hls2.
    cbn [rejections].
    destruct (Validate (WH_SessionValidator h) r (app w))
      as [a [session err]].
    cbn [fst snd] in *.
    destruct err as [e|]; [|destruct (Upgrade r) as [c|]];
      cbv zeta in Hcase; destruct Hcase as (Hs & _ & Hb & Hl);
      destruct Hlive as [Hlv _]; rewrite Hlv, Hs, Hb, Hl;
      cbn [List.app length Nat.add];
      repeat split; try reflexivity; cbn [length]; lia.
Qed.

(** X6. A server that has taken [n] requests one after the other has
    called the validator [n] times and has, for each request, either
    answered a status or built a handle and started its loop, never
    both and never neither; each handle is on a transport of its own
    that ServeHTTP has already closed by the time it returns, so that
    nothing can be read on it any more. *)
Theorem server_accounts_for_every_request h (rs : list Request) w :
  let w' := fst (accept Upgrade h rs w) in
  let cs := snd (accept Upgrade h rs w) in
  Forall (fun c => readable (Conn c) w' = []) cs
  /\ exists tr,
       trace w' = trace w ++ tr
       /\ validations tr = length rs
       /\ statuses tr = rejections Upgrade h rs (app w)
       /\ clients_built tr = cs
       /\ loops_started tr = cs
       /\ length (statuses tr) + length cs = length rs.
Proof.
  cbv zeta. split; [|apply accept_accounts].
  revert w. induction rs as [|r rs IH]; intros w; [constructor|].
  rewrite accept_cons. cbv zeta. cbn [fst snd].
  destruct (serve_and_return_conns h r w) as [_ Hlive].
  pose proof (serve_and_return h r w) as [_ Hcase].
  specialize (IH (world (run [TServe] (ServeHTTP Upgrade h r w)))).
  destruct (live_client (run [TServe] (ServeHTTP Upgrade h r w))) as [c|];
    [|exact IH].
  constructor; [|exact IH].
  destruct Hlive as [Hc Hr].
  apply accept_keeps_closed; [|exact Hr].
  destruct (snd (snd (Validate (WH_SessionValidator h) r (app w))));
    [|destruct (Upgrade r)]; destruct Hcase as [Hl Hnx];
    try discriminate; lia.
Qed.

(** *** The application heap under the scheduler *)

Lemma handle_all_app (messager : MessageHandler App) (client : Client)
    (fs1 fs2 : list Frame) (a : App) :
  fst (handle_all messager client (fs1 ++ fs2) a)
  = fst (handle_all messager client fs2
           (fst (handle_all messager client fs1 a))).
Proof.
  revert a. induction fs1 as [|m fs1 IH]; intros a; [reflexivity|].
  cbn [List.app handle_all].
  destruct (Handle messager client m a) as [a1 err].
  specialize (IH a1).
  destruct (handle_all messager client (fs1 ++ fs2) a1) as [a2 hs2].
  destruct (handle_all messager client fs1 a1) as [a3 hs3].
  exact IH.
Qed.

Lemma step_heap (t : Tid) s :
  exists tr,
    trace (world (step t s)) = trace (world s) ++ tr
    /\ app (world (step t s)) = heap_after s tr
    /\ option_map (fun g => (g_client g, g_messager g)) (loop (step t s))
       = option_map (fun g => (g_client g, g_messager g)) (loop s).
Proof.
  destruct s as [w ds lp]. unfold heap_after. cbn [loop world].
  destruct t; unfold step; cbn [deferred loop world].
  - destruct ds as [|c rest]; cbn [world loop].
    + exists []. rewrite app_nil_r. destruct lp; auto.
    + exists [EvClose c].
      destruct (Conn_Close_trace c w) as (-> & -> & _).
      destruct lp; auto.
  - destruct lp as [g|]; cbn [world loop];
      [|exists []; rewrite app_nil_r; auto].
    destruct g as [client messager persister pc].
    cbn [g_client g_messager option_map].
    destruct pc as [|m| |].
    + destruct (Conn_ReadMessage_trace (Conn client) w) as (r & Htr & Happ & _).
      unfold loop_step. cbn [g_pc g_client].
      destruct (Conn_ReadMessage (Conn client) w) as [w1 [m [e|]]];
        cbn [fst] in Htr, Happ; cbn [world loop option_map g_client g_messager at_pc];
        exists [EvReadMessage (Conn client) r]; rewrite Htr, Happ; auto.
    + rewrite loop_step_handle. cbn [world loop option_map g_client g_messager].
      exists [EvHandle client m (snd (Handle messager client m (app w)))].
      cbn [trace emit set_app app frames_handled handle_all].
      destruct (Handle messager client m (app w)) as [a err].
      repeat split; reflexivity.
    + rewrite loop_step_close. cbn [world loop option_map g_client g_messager].
      exists [EvClose (Conn client)].
      destruct (Conn_Close_trace (Conn client) w) as (-> & -> & _). auto.
    + exists []. cbn. rewrite app_nil_r. auto.
Qed.

(** X12. Under every schedule the application heap changes through
    the calls of [Handle] and through nothing else: what it holds at any
    moment is what those calls, replayed in the order of the trace on
    the heap the goroutine started from, leave. Reading, closing and
    the return of [ServeHTTP] never touch it. *)
Theorem heap_changes_only_through_Handle (sched : list Tid) s :
  exists tr,
    trace (world (run sched s)) = trace (world s) ++ tr
    /\ app (world (run sched s)) = heap_after s tr.
Proof.
  revert s. induction sched as [|t sched IH]; intros s.
  - exists []. cbn. rewrite app_nil_r. unfold heap_after.
    destruct (loop s); auto.
  - destruct (step_heap t s) as (tr1 & H1 & A1 & G1).
    destruct (IH (step t s)) as (tr2 & H2 & A2).
    exists (tr1 ++ tr2). rewrite run_cons, H2, H1, <- app_assoc.
    split; [reflexivity|]. rewrite A2. unfold heap_after in *.
    destruct (loop (step t s)) as [g'|]; destruct (loop s) as [g|];
      cbn in G1; try discriminate.
    + injection G1 as -> ->.
      rewrite frames_handled_app, handle_all_app, A1. reflexivity.
    + rewrite A1. destruct (step_inflight t s) as (tr1' & H1' & _).
      rewrite H1 in H1'. apply app_inv_head in H1'. subst tr1'.
      reflexivity.
Qed.

(** X13. The handler [NewWebSocketHandler] builds serves with the very
    collaborators it was given, as the test of the package asserts of
    its fields: the validator consulted for a request is the one given,
    and the goroutine started for an accepted connection holds the
    message handler and the persister given. *)
Theorem NewWebSocketHandler_wires_its_collaborators
    (validator : SessionValidator Request App)
    (messeger : MessageHandler App) (persister : EnvelopePersister App)
    (r : Request) w :
  let h := NewWebSocketHandler validator messeger persister in
  let res := Validate validator r (app w) in
  WH_SessionValidator h = validator
  /\ WH_MessageHandler h = messeger
  /\ WH_EnvelopePersister h = persister
  /\ (exists tr, trace (world (ServeHTTP Upgrade h r w))
                 = trace w ++ EvValidate (fst (snd res)) (snd (snd res)) :: tr)
  /\ match loop (ServeHTTP Upgrade h r w) with
     | Some g => g_messager g = messeger /\ g_persister g = persister
                 /\ ID (g_client g) = ClientID (fst (snd res))
     | None => snd (snd res) <> None \/ Upgrade r = None
     end.
Proof.
  cbv zeta. repeat split.
  - destruct (ServeHTTP_outcome
                (NewWebSocketHandler validator messeger persister) r w [])
      as (tr & Htr & _).
    exists tr. exact Htr.
  - unfold ServeHTTP. cbn [WH_SessionValidator NewWebSocketHandler].
    destruct (Validate validator r (app w)) as [a [session [e|]]];
      cbn [loop fst snd]; [left; discriminate|].
    destruct (Upgrade r) as [c|]; cbn [loop alloc fst snd]; [|right; reflexivity].
    cbn [g_messager g_persister g_client WH_MessageHandler
         WH_EnvelopePersister NewWebSocketHandler].
    repeat split. apply NewClient_ID.
Qed.

End Lifecycle.

(* ------------------------------------------------------------------ *)
(** ** The collaborators of the tests and of the demo *)

Section Doubles.

Context {Request : Type}.
Variable Upgrade : Request -> option WsConn.






End Doubles.



(** X10. The persister of the tests keeps the envelopes it is asked to
    save, as given and in call order, after those it already had, when
    its flag is clear, and every call returns nil; with the flag set it
    keeps nothing and every call fails. Confirming a delivery never
    changes an envelope: no [Delivered] field is ever set. The
    validator and the handler of the test are left as they were. *)
Theorem mockPersister_keeps_what_it_saves (cs : list PersistCall)
    (a : MockApp) :
  let flag := p_shouldFail (mock_persister a) in
  let a' := fst (persist_all mockPersister cs a) in
  let errs := snd (persist_all mockPersister cs a) in
  p_envelopes (mock_persister a')
  = p_envelopes (mock_persister a) ++ (if flag then [] else saved cs)
  /\ p_shouldFail (mock_persister a') = flag
  /\ mock_validator a' = mock_validator a
  /\ mock_handler a' = mock_handler a
  /\ length errs = length cs
  /\ Forall (fun e => is_nil e = negb flag) errs.
Proof.
  cbv zeta. revert a. induction cs as [|c cs IH]; intros a.
  - cbn. destruct (p_shouldFail (mock_persister a));
      rewrite ?app_nil_r; auto 10.
  - cbn [persist_all].
    destruct (persist_call mockPersister c a) as [a1 err] eqn:Hc.
    specialize (IH a1).
    destruct (persist_all mockPersister cs a1) as [a2 errs].
    cbn [fst snd length] in *.
    destruct IH as (He & Hf & Hv & Hh & Hl & Hall).
    destruct c as [e|eid cid]; cbn in Hc;
      unfold mock_SaveEnvelope, mock_ConfirmDelivery in Hc;
      destruct (p_shouldFail (mock_persister a)) eqn:Hflag;
      injection Hc as <- <-;
      cbn [mock_persister mock_validator mock_handler p_envelopes
           p_shouldFail saved] in *;
      rewrite ?Hflag in *; rewrite He, Hl, ?app_nil_r, <- ?app_assoc;
      repeat split; try assumption; try reflexivity;
      constructor; try reflexivity; assumption.
Qed.

Lemma try_send_room (v : Frame) (ch : Chan) :
  chan_len ch < chan_cap ch ->
  chan_apply (OpTrySend v) ch = MkChan (chan_buf ch ++ [v]) (chan_cap ch).
Proof.
  intros H. unfold chan_apply, chan_try_send.
  destruct (Nat.ltb_spec (chan_len ch) (chan_cap ch)); [reflexivity | lia].
Qed.

Lemma try_send_full (v : Frame) (ch : Chan) :
  chan_cap ch <= chan_len ch -> chan_apply (OpTrySend v) ch = ch.
Proof.
  intros H. unfold chan_apply, chan_try_send.
  destruct (Nat.ltb_spec (chan_len ch) (chan_cap ch)); [lia | reflexivity].
Qed.

Lemma try_sends_fill (vs : list Frame) :
  forall ch : Chan,
    chan_len ch <= chan_cap ch ->
    chan_buf (chan_run (map OpTrySend vs) ch)
    = chan_buf ch ++ take (chan_cap ch - chan_len ch) vs.
Proof.
  induction vs as [|v vs IH]; intros ch Hle.
  - cbn. now rewrite take_nil, app_nil_r.
  - change (chan_run (map OpTrySend (v :: vs)) ch)
      with (chan_run (map OpTrySend vs) (chan_apply (OpTrySend v) ch)).
    destruct (Nat.lt_ge_cases (chan_len ch) (chan_cap ch)) as [Hlt|Hge].
    + rewrite (try_send_room v ch Hlt), IH;
        unfold chan_len in *; cbn [chan_buf chan_cap];
        rewrite length_app; cbn [length]; [|lia].
      replace (chan_cap ch - length (chan_buf ch))
        with (S (chan_cap ch - (length (chan_buf ch) + 1))) by lia.
      rewrite <- app_assoc. reflexivity.
    + rewrite (try_send_full v ch Hge), IH by exact Hle.
      replace (chan_cap ch - chan_len ch) with 0 by lia. reflexivity.
Qed.

(** X11. A producer that enqueues with [select] and [default] on the
    queue of a fresh handle gets its first 256 messages in, in order,
    and loses every later one: the queue then holds exactly the first
    256 messages offered. *)
Theorem Send_queue_keeps_the_first_256 (id : Identity) (conn : ConnRef)
    (now : Time) (vs : list Frame) :
  chan_buf (chan_run (map OpTrySend vs) (Send (NewClient id conn now)))
  = take 256 vs.
Proof.
  rewrite try_sends_fill by (cbn; lia). reflexivity.
Qed.


(** ** The properties on concrete runs *)

Lemma ServeHTTP_rejects_invalid_session_witness :
  let s := run [TServe; TLoop]
             (ServeHTTP example_Upgrade mock_handler_of (Some [frame_a])
                (empty_world (mock_app true false))) in
  statuses (trace (world s)) = [401]
  /\ clients_built (trace (world s)) = []
  /\ frames_handled (trace (world s)) = [].
Proof.
  pose proof (ServeHTTP_rejects_invalid_session example_Upgrade
                mock_handler_of (Some [frame_a])
                (empty_world (mock_app true false)) [TServe; TLoop] eq_refl)
    as H.
  cbv zeta in H. destruct H as (_ & Hs & _ & Hc & _ & Hh & _).
  cbv zeta. split; [exact Hs|]. split; [exact Hc | exact Hh].
Defined.

Lemma ServeHTTP_rejects_failed_upgrade_witness :
  let s := run [TLoop; TServe]
             (ServeHTTP example_Upgrade mock_handler_of None
                (empty_world (mock_app false false))) in
  statuses (trace (world s)) = [500]
  /\ clients_built (trace (world s)) = [].
Proof.
  pose proof (ServeHTTP_rejects_failed_upgrade example_Upgrade
                mock_handler_of None
                (empty_world (mock_app false false)) [TLoop; TServe]
                eq_refl eq_refl) as H.
  cbv zeta in H. destruct H as (_ & Hs & Hc & _).
  cbv zeta. split; [exact Hs | exact Hc].
Defined.

Lemma ServeHTTP_builds_one_client_witness :
  let s := run [TLoop; TLoop; TServe]
             (ServeHTTP example_Upgrade mock_handler_of
                (Some [frame_a; frame_b])
                (empty_world (mock_app false false))) in
  clients_built (trace (world s)) = [NewClient Identity_zero 0 0%Z]
  /\ loops_started (trace (world s)) = [NewClient Identity_zero 0 0%Z].
Proof.
  pose proof (ServeHTTP_builds_one_client example_Upgrade mock_handler_of
                (Some [frame_a; frame_b])
                (empty_world (mock_app false false))
                (MkWsConn [frame_a; frame_b] false) [TLoop; TLoop; TServe]
                eq_refl eq_refl) as H.
  cbv zeta in H. destruct H as (_ & Hc & Hl & _).
  cbv zeta. split; [exact Hc | exact Hl].
Defined.

Lemma HandleClient_handles_frames_in_order_witness :
  exists w',
    HandleClient 4 example_client pickyHandler mockPersister
      (one_conn_world [frame_a; frame_b; frame_c] (mock_app false false))
    = Some w'
    /\ frames_handled (trace w') = [frame_a; frame_b; frame_c].
Proof.
  destruct (HandleClient_handles_frames_in_order
              example_client pickyHandler mockPersister
              (one_conn_world [frame_a; frame_b; frame_c]
                 (mock_app false false)) 4)
    as [(w' & Hrun & Htr & _ & _ & Hh & _) _].
  - vm_compute. lia.
  - exists w'. split; [exact Hrun|].
    rewrite Htr, frames_handled_app, Hh. reflexivity.
Defined.

Lemma HandleClient_never_calls_persister_witness :
  exists w',
    HandleClient 3 example_client mockHandler loudPersister
      (one_conn_world [frame_a; frame_b] (mock_app false false))
    = Some w'
    /\ HandleClient 3 example_client mockHandler mockPersister
         (one_conn_world [frame_a; frame_b] (mock_app false false))
       = Some w'
    /\ p_envelopes (mock_persister (app w')) = []
    /\ m_messages (mock_handler (app w')) = [frame_a; frame_b].
Proof.
  destruct (HandleClient_never_calls_persister
              example_client mockHandler loudPersister mockPersister
              (one_conn_world [frame_a; frame_b] (mock_app false false)) 3)
    as (Hsame & Happ & _).
  eexists. split; [vm_compute; reflexivity|].
  split; [rewrite <- Hsame; vm_compute; reflexivity|].
  split; vm_compute; reflexivity.
Defined.

Lemma accepted_connection_is_closed_twice_witness :
  let s0 := ServeHTTP example_Upgrade mock_handler_of (Some [frame_a])
              (empty_world (mock_app false false)) in
  finished (run [TServe; TLoop; TLoop] s0) = true
  /\ exists tr,
       trace (world (run [TServe; TLoop; TLoop] s0)) = trace (world s0) ++ tr
       /\ closes 0 tr = 2.
Proof.
  cbv zeta. split; [vm_compute; reflexivity|].
  apply (accepted_connection_is_closed_twice example_Upgrade mock_handler_of
           (Some [frame_a]) (empty_world (mock_app false false))
           (MkWsConn [frame_a] false) [TServe; TLoop; TLoop]
           eq_refl eq_refl).
  vm_compute; reflexivity.
Defined.

(** C2 on a concrete run, event by event: the peer has sent
    "a", [ServeHTTP] returns before the goroutine is scheduled, and the
    transport at address 0 is closed by both. *)
Example double_close_run :
  let s := run [TServe; TLoop; TLoop]
             (ServeHTTP example_Upgrade mock_handler_of (Some [frame_a])
                (empty_world (mock_app false false))) in
  trace (world s)
  = [EvValidate SessionInfo_zero None; EvUpgrade (Some 0);
     EvNewClient example_client; EvGo example_client;
     EvClose 0; EvReadMessage 0 None; EvClose 0]
  /\ closes 0 (trace (world s)) = 2
  /\ frames_handled (trace (world s)) = [].
Proof. vm_compute. repeat split; reflexivity. Qed.

(** The same request when the goroutine runs first: it reads and
    handles "a", then [ServeHTTP] returns and closes, the next read
    fails and the loop closes again. *)
Example double_close_run_loop_first :
  let s := run [TLoop; TLoop; TServe; TLoop; TLoop]
             (ServeHTTP example_Upgrade mock_handler_of (Some [frame_a])
                (empty_world (mock_app false false))) in
  finished s = true
  /\ closes 0 (trace (world s)) = 2
  /\ frames_handled (trace (world s)) = [frame_a].
Proof. vm_compute. repeat split; reflexivity. Qed.

(** C8, against it: with the validator of the demo program, which
    returns the zero session for every request, two connections
    accepted one after the other give two handles that are both live,
    on different transports, with the same ID. *)
Lemma two_live_handles_share_an_identity :
  exists c1 c2 : Client,
    snd (accept example_Upgrade demo_handler
           [Some [frame_a]; Some [frame_b]] (empty_world tt))
    = [c1; c2]
    /\ Conn c1 <> Conn c2
    /\ ID c1 = ID c2.
Proof.
  exists (NewClient Identity_zero 0 0%Z), (NewClient Identity_zero 1 0%Z).
  split; [vm_compute; reflexivity|].
  split; [cbn; discriminate | reflexivity].
Qed.

Lemma HandleClient_touches_only_its_transport_witness :
  exists w',
    HandleClient 2 example_client mockHandler mockPersister
      (two_conn_world [frame_a] [frame_b] (mock_app false false))
    = Some w'
    /\ conns w' !! 1 = Some (MkWsConn [frame_b] false)
    /\ readable 0 w' = [].
Proof.
  destruct (HandleClient 2 example_client mockHandler mockPersister
              (two_conn_world [frame_a] [frame_b] (mock_app false false)))
    as [w'|] eqn:Hrun; [|vm_compute in Hrun; discriminate].
  exists w'. split; [reflexivity|].
  destruct (HandleClient_touches_only_its_transport 2 _ _ _ _ _ Hrun)
    as (Ho & _ & _ & Hr & _).
  split; [|exact Hr]. rewrite Ho by (cbn; lia). vm_compute. reflexivity.
Defined.

Lemma return_first_loses_every_frame_witness :
  let s0 := ServeHTTP example_Upgrade mock_handler_of
              (Some [frame_a; frame_b; frame_c])
              (empty_world (mock_app false false)) in
  exists tr,
    trace (world (run [TServe; TLoop; TLoop; TLoop; TLoop] s0))
    = trace (world s0) ++ EvClose 0 :: tr
    /\ frames_read tr = []
    /\ frames_handled tr = [].
Proof.
  cbv zeta.
  destruct (return_first_loses_every_frame example_Upgrade mock_handler_of
              (Some [frame_a; frame_b; frame_c])
              (empty_world (mock_app false false))
              (MkWsConn [frame_a; frame_b; frame_c] false)
              [TLoop; TLoop; TLoop; TLoop] eq_refl eq_refl)
    as (tr & Htr & Hr & Hh & _).
  exists tr. split; [exact Htr|]. split; [exact Hr | exact Hh].
Defined.



